(** * personal-web: the typewriter phrase cycler and the contact endpoint

  A shallow embedding of
  - [src/components/TypingEffect.tsx]: the [TypingEffect] component, whose
    [useEffect] body drives a text through typing, pause and deleting;
  - the contact route handler ([contactSchema] and [POST]).

  React state is a record; one run of the effect body together with the
  state updates it causes (at once, or when its timer fires) is one step
  [advance].  Code that can throw returns a [result]. *)

From Stdlib Require Import ZArith List String Ascii Bool Lia.
Import ListNotations.
Local Open Scope Z_scope.
Set Warnings "-register-all".

(** ** The JavaScript values the code uses *)

Module JS.

(** A string is a sequence of UTF-16 code units, each given by its number. *)
Definition code_unit := N.
Definition js_string := list code_unit.

(** The code units of an ASCII literal. *)
Fixpoint js (s : string) : js_string :=
  match s with
  | EmptyString => []
  | String c rest => N_of_ascii c :: js rest
  end.

(** [a === b] on two strings. *)
Fixpoint str_eqb (a b : js_string) : bool :=
  match a, b with
  | [], [] => true
  | x :: a', y :: b' => N.eqb x y && str_eqb a' b'
  | _, _ => false
  end.

(** [s.length], in code units. *)
Definition str_length (s : js_string) : Z := Z.of_nat (List.length s).

(** [a.length] of an array. *)
Definition arr_length {A : Type} (a : list A) : Z := Z.of_nat (List.length a).

(** [s.slice(start, end)]: a negative position counts from the end, and
    both positions are clamped to [0 .. s.length]. *)
Definition slice (s : js_string) (start end_ : Z) : js_string :=
  let len := str_length s in
  let from := if start <? 0 then Z.max (len + start) 0 else Z.min start len in
  let to := if end_ <? 0 then Z.max (len + end_) 0 else Z.min end_ len in
  let span := Z.max (to - from) 0 in
  firstn (Z.to_nat span) (skipn (Z.to_nat from) s).

(** The numbers the cycler computes with are integers or [NaN] (which
    [x % 0] produces). *)
Inductive number :=
| Num (z : Z)
| NaN.

Definition add (a b : number) : number :=
  match a, b with
  | Num x, Num y => Num (x + y)
  | _, _ => NaN
  end.

(** [a % b]: the remainder has the sign of the dividend; [a % 0] is [NaN]. *)
Definition rem (a b : number) : number :=
  match a, b with
  | Num x, Num y => if y =? 0 then NaN else Num (Z.rem x y)
  | _, _ => NaN
  end.

(** [a[i]]: [undefined] ([None]) outside the array and at [NaN]. *)
Definition index {A : Type} (a : list A) (i : number) : option A :=
  match i with
  | Num z => if z <? 0 then None else nth_error a (Z.to_nat z)
  | NaN => None
  end.

(** [s === v] where [v] is a string or [undefined]. *)
Definition strict_eq (s : js_string) (v : option js_string) : bool :=
  match v with
  | Some t => str_eqb s t
  | None => false
  end.

Inductive exn :=
| TypeError
| SyntaxError
| Error (msg : string).

Inductive result (A : Type) :=
| Ok (a : A)
| Throw (e : exn).
Arguments Ok {A} a.
Arguments Throw {A} e.

Definition bind {A B : Type} (r : result A) (k : A -> result B) : result B :=
  match r with
  | Ok a => k a
  | Throw e => Throw e
  end.

(** [t] is an initial segment of [ph]. *)
Fixpoint is_prefix (t ph : js_string) : bool :=
  match t, ph with
  | [], _ => true
  | x :: t', y :: ph' => N.eqb x y && is_prefix t' ph'
  | _ :: _, [] => false
  end.

End JS.
Import JS.

(** ** The component: [TypingEffect] *)

Module Cycler.

(** [TypingEffectProps]; an absent optional prop is [None]. *)
Record TypingEffectProps := {
  phrases : list js_string;
  typingSpeed : option Z;
  deletingSpeed : option Z;
  pauseDuration : option Z;
  className : option js_string
}.

(** The defaults of the destructured parameter. *)
Definition typingSpeed_of (p : TypingEffectProps) : Z :=
  match typingSpeed p with Some ms => ms | None => 100 end.
Definition deletingSpeed_of (p : TypingEffectProps) : Z :=
  match deletingSpeed p with Some ms => ms | None => 50 end.
Definition pauseDuration_of (p : TypingEffectProps) : Z :=
  match pauseDuration p with Some ms => ms | None => 2000 end.

(** The four [useState] cells. *)
Record State := {
  currentPhraseIndex : number;
  currentText : js_string;
  isDeleting : bool;
  isPaused : bool
}.

Definition mk (i : number) (t : js_string) (deleting paused : bool) : State :=
  {| currentPhraseIndex := i; currentText := t;
     isDeleting := deleting; isPaused := paused |}.

(** The initial values given to [useState]. *)
Definition initial : State :=
  {| currentPhraseIndex := Num 0;
     currentText := [];
     isDeleting := false;
     isPaused := false |}.

(** The first render: the props are destructured with their defaults and
    the state cells are created; nothing is checked. *)
Definition mount (p : TypingEffectProps) : result State :=
  let _ := typingSpeed_of p in
  let _ := deletingSpeed_of p in
  let _ := pauseDuration_of p in
  Ok initial.

(** A call of a state setter; the two functional updaters receive the
    previous value. *)
Inductive setState :=
| setCurrentPhraseIndex (f : number -> number)
| setCurrentText (f : js_string -> result js_string)
| setIsDeleting (b : bool)
| setIsPaused (b : bool).

(** What one run of the effect body does: it calls setters at once, or
    it arms one [setTimeout] whose callback calls them. *)
Inductive scheduled :=
| Immediately (calls : list setState)
| SetTimeout (calls : list setState) (ms : Z).

(** The body of [useEffect], for the state of the current render. *)
Definition useEffect (p : TypingEffectProps) (s : State) : scheduled :=
  let currentPhrase := index (phrases p) (currentPhraseIndex s) in
  if isPaused s then
    SetTimeout [setIsPaused false; setIsDeleting true] (pauseDuration_of p)
  else if negb (isDeleting s) && strict_eq (currentText s) currentPhrase then
    Immediately [setIsPaused true]
  else if isDeleting s && str_eqb (currentText s) [] then
    Immediately
      [setIsDeleting false;
       setCurrentPhraseIndex
         (fun prev => rem (add prev (Num 1)) (Num (arr_length (phrases p))))]
  else
    SetTimeout
      [if isDeleting s then
         setCurrentText (fun prev => Ok (slice prev 0 (-1)))
       else
         setCurrentText
           (fun prev =>
              match currentPhrase with
              | Some phrase => Ok (slice phrase 0 (str_length prev + 1))
              | None => Throw TypeError
              end)]
      (if isDeleting s then deletingSpeed_of p else typingSpeed_of p).

Definition calls_of (e : scheduled) : list setState :=
  match e with
  | Immediately calls => calls
  | SetTimeout calls _ => calls
  end.

(** The delay of the timer the effect arms, if it arms one. *)
Definition timer (e : scheduled) : option Z :=
  match e with
  | Immediately _ => None
  | SetTimeout _ ms => Some ms
  end.

Definition apply_setState (u : setState) (s : State) : result State :=
  match u with
  | setCurrentPhraseIndex f =>
      Ok {| currentPhraseIndex := f (currentPhraseIndex s);
            currentText := currentText s;
            isDeleting := isDeleting s;
            isPaused := isPaused s |}
  | setCurrentText f =>
      bind (f (currentText s)) (fun t =>
      Ok {| currentPhraseIndex := currentPhraseIndex s;
            currentText := t;
            isDeleting := isDeleting s;
            isPaused := isPaused s |})
  | setIsDeleting b =>
      Ok {| currentPhraseIndex := currentPhraseIndex s;
            currentText := currentText s;
            isDeleting := b;
            isPaused := isPaused s |}
  | setIsPaused b =>
      Ok {| currentPhraseIndex := currentPhraseIndex s;
            currentText := currentText s;
            isDeleting := isDeleting s;
            isPaused := b |}
  end.

Fixpoint apply_calls (calls : list setState) (s : State) : result State :=
  match calls with
  | [] => Ok s
  | u :: rest => bind (apply_setState u s) (apply_calls rest)
  end.

(** One step of the cycler: the effect body runs for the state [s] and its
    setter calls are applied (when the timer fires, if it armed one).  The
    calls of one callback are batched into one render. *)
Definition advance (p : TypingEffectProps) (s : State) : result State :=
  apply_calls (calls_of (useEffect p s)) s.

Fixpoint advance_n (p : TypingEffectProps) (n : nat) (s : State)
  : result State :=
  match n with
  | O => Ok s
  | S k => bind (advance p s) (advance_n p k)
  end.

(** The states the component goes through after mounting. *)
Inductive reachable (p : TypingEffectProps) : State -> Prop :=
| reach_mount : forall s, mount p = Ok s -> reachable p s
| reach_advance : forall s s',
    reachable p s -> advance p s = Ok s' -> reachable p s'.

(** The three phases of the cycle, read off the two flags.  The flags
    allow a fourth combination, both set, which is no phase. *)
Inductive Phase := Typing | Paused | Deleting.

Definition phase_of (s : State) : option Phase :=
  match isDeleting s, isPaused s with
  | false, false => Some Typing
  | false, true => Some Paused
  | true, false => Some Deleting
  | true, true => None
  end.

(** The displayed text is an initial segment of the active phrase. *)
Definition displays_prefix (p : TypingEffectProps) (s : State) : Prop :=
  match index (phrases p) (currentPhraseIndex s) with
  | Some phrase => is_prefix (currentText s) phrase = true
  | None => False
  end.

(** Props used as examples: one phrase, no phrase, and a zero and a
    negative interval. *)
Definition hi_props : TypingEffectProps :=
  {| phrases := [js "hi"];
     typingSpeed := Some 10;
     deletingSpeed := Some 10;
     pauseDuration := Some 100;
     className := None |}.

Definition ab_cd_props : TypingEffectProps :=
  {| phrases := [js "ab"; js "cd"];
     typingSpeed := None;
     deletingSpeed := None;
     pauseDuration := None;
     className := None |}.

Definition no_phrase_props : TypingEffectProps :=
  {| phrases := [];
     typingSpeed := None;
     deletingSpeed := None;
     pauseDuration := None;
     className := None |}.

Definition bad_interval_props : TypingEffectProps :=
  {| phrases := [js "hi"];
     typingSpeed := Some 0;
     deletingSpeed := Some (-5);
     pauseDuration := Some 100;
     className := None |}.

End Cycler.

(** ** The contact route: [contactSchema] and [POST] *)

Module Contact.

(** A value produced by [request.json()].  An object is given by its own
    properties, one entry per key. *)
Inductive json :=
| JNull
| JBool (b : bool)
| JNumber (mantissa exponent : Z)
| JString (s : js_string)
| JArray (items : list json)
| JObject (members : list (js_string * json)).

Fixpoint lookup (k : js_string) (members : list (js_string * json))
  : option json :=
  match members with
  | [] => None
  | (k', v) :: rest => if str_eqb k k' then Some v else lookup k rest
  end.

(** [body[k]] as the object schema reads it: [undefined] when the key is
    absent, and for every key when [body] is not an object. *)
Definition get (body : json) (k : js_string) : option json :=
  match body with
  | JObject members => lookup k members
  | _ => None
  end.

(** The issue codes of the validation library. *)
Inductive issue := invalid_type | too_small | too_big | invalid_string.

(** The checks chained on [z.string()]. *)
Inductive check :=
| min (n : Z)
| max (n : Z)
| email.

Record ContactData := {
  name : js_string;
  email_address : js_string;
  message : js_string
}.

(** [fieldErrors] of a flattened error: the fields that have issues. *)
Definition FieldErrors := list (js_string * list issue).

Inductive SafeParseReturn :=
| Success (data : ContactData)
| Failure (formErrors : list issue) (fieldErrors : FieldErrors).

(** The body given to [NextResponse.json] and its status. *)
Record ResponseBody := {
  success : bool;
  response_message : js_string;
  errors : option FieldErrors
}.

Record NextResponse := {
  response_body : ResponseBody;
  status : Z
}.

(** The argument of [resend.emails.send]. *)
Record Email := {
  from : js_string;
  to : js_string;
  replyTo : js_string;
  subject : js_string;
  text : js_string;
  html : js_string
}.

Inductive console_call :=
| console_log (args : list js_string)
| console_error (label : js_string) (error : exn).

(** A request, as far as the handler looks at it: what [request.json()]
    gives, a value or a thrown error when the body is not JSON. *)
Record NextRequest := {
  request_json : result json
}.

(** The handler's effects: it writes to the console and it may throw. *)
Definition M (A : Type) : Type :=
  list console_call -> result A * list console_call.

Definition ret {A : Type} (a : A) : M A := fun out => (Ok a, out).

Definition bindM {A B : Type} (m : M A) (k : A -> M B) : M B :=
  fun out =>
    match m out with
    | (Ok a, out') => k a out'
    | (Throw e, out') => (Throw e, out')
    end.

Definition lift {A : Type} (r : result A) : M A := fun out => (r, out).

Definition print (c : console_call) : M unit := fun out => (Ok tt, out ++ [c]).

(** [try { m } catch (e) { handler e }] *)
Definition try_catch {A : Type} (m : M A) (handler : exn -> M A) : M A :=
  fun out =>
    match m out with
    | (Ok a, out') => (Ok a, out')
    | (Throw e, out') => handler e out'
    end.

Declare Scope handler_scope.
Notation "x <- m ;; k" := (bindM m (fun x => k))
  (at level 61, m at next level, right associativity) : handler_scope.
Notation "m ;; k" := (bindM m (fun _ => k))
  (at level 61, right associativity) : handler_scope.

(** [s.replace(/[<>]/g, '')] *)
Definition strip_angle_brackets (s : js_string) : js_string :=
  filter (fun c => negb (N.eqb c 60 || N.eqb c 62)) s.

(** [s.replace(/\n/g, '<br>')] *)
Definition newlines_to_br (s : js_string) : js_string :=
  flat_map (fun c => if N.eqb c 10 then js "<br>" else [c]) s.

Definition nl : js_string := [10%N].

Section Route.

(** The parts of the run-time and of the libraries the route calls:
    the validation library's email pattern, the string built-ins, the clock
    and the mail service. *)
Variable is_email : js_string -> bool.
Variable trim : js_string -> js_string.
Variable toLowerCase : js_string -> js_string.
Variable toISOString_now : js_string.
Variable resend_emails_send : Email -> result unit.

Definition run_check (c : check) (s : js_string) : list issue :=
  match c with
  | min n => if str_length s <? n then [too_small] else []
  | max n => if str_length s >? n then [too_big] else []
  | email => if is_email s then [] else [invalid_string]
  end.

(** [z.string()] with its checks, on the value of a field: the string, or
    the issues found.  All checks run. *)
Definition z_string (checks : list check) (v : option json)
  : js_string + list issue :=
  match v with
  | Some (JString s) =>
      match flat_map (fun c => run_check c s) checks with
      | [] => inl s
      | issues => inr issues
      end
  | _ => inr [invalid_type]
  end.

Definition issues_of (r : js_string + list issue) : list issue :=
  match r with
  | inl _ => []
  | inr issues => issues
  end.

Definition field_errors (fields : list (js_string * (js_string + list issue)))
  : FieldErrors :=
  flat_map
    (fun f => match snd f with
              | inl _ => []
              | inr issues => [(fst f, issues)]
              end)
    fields.

(** [contactSchema.safeParse(body)] *)
Definition contactSchema_safeParse (body : json) : SafeParseReturn :=
  match body with
  | JObject _ =>
      let r_name := z_string [min 2; max 50] (get body (js "name")) in
      let r_email := z_string [email] (get body (js "email")) in
      let r_message := z_string [min 10; max 1000] (get body (js "message")) in
      match r_name, r_email, r_message with
      | inl n, inl e, inl m =>
          Success {| name := n; email_address := e; message := m |}
      | _, _, _ =>
          Failure []
            (field_errors [(js "name", r_name); (js "email", r_email);
                           (js "message", r_message)])
      end
  | _ => Failure [invalid_type] []
  end.

Local Open Scope handler_scope.

(** The [POST] handler. *)
Definition POST (request : NextRequest) : M NextResponse :=
  try_catch
    (body <- lift (request_json request) ;;
     match contactSchema_safeParse body with
     | Failure _ fieldErrors =>
         ret {| response_body :=
                  {| success := false;
                     response_message := js "Validation failed";
                     errors := Some fieldErrors |};
                status := 400 |}
     | Success data =>
         let sanitizedName := strip_angle_brackets (trim (name data)) in
         let sanitizedEmail := toLowerCase (trim (email_address data)) in
         let sanitizedMessage := strip_angle_brackets (trim (message data)) in
         try_catch
           (lift (resend_emails_send
              {| from := js "onboarding@resend.dev";
                 to := js "timlee.dev@gmail.com";
                 replyTo := sanitizedEmail;
                 subject := js "Portfolio Contact from " ++ sanitizedName;
                 text := js "Name: " ++ sanitizedName ++ nl
                         ++ js "Email: " ++ sanitizedEmail ++ nl ++ nl
                         ++ js "Message:" ++ nl ++ sanitizedMessage;
                 html := nl
                   ++ js "          <h2>New Contact Form Submission</h2>" ++ nl
                   ++ js "          <p><strong>From:</strong> "
                   ++ sanitizedName ++ js "</p>" ++ nl
                   ++ js "          <p><strong>Email:</strong> "
                   ++ sanitizedEmail ++ js "</p>" ++ nl
                   ++ js "          <p><strong>Message:</strong></p>" ++ nl
                   ++ js "          <p>" ++ newlines_to_br sanitizedMessage
                   ++ js "</p>" ++ nl
                   ++ js "        " |}) ;;
            print (console_log
                     [js "Contact form submission received and emailed:"]) ;;
            print (console_log [js "Name:"; sanitizedName]) ;;
            print (console_log [js "Email:"; sanitizedEmail]) ;;
            print (console_log [js "Timestamp:"; toISOString_now]))
           (fun emailError =>
              print (console_error (js "Failed to send email:") emailError)) ;;
         ret {| response_body :=
                  {| success := true;
                     response_message :=
                       js "Message received successfully! Thank you for reaching out.";
                     errors := None |};
                status := 200 |}
     end)
    (fun error =>
       print (console_error (js "Contact form error:") error) ;;
       ret {| response_body :=
                {| success := false;
                   response_message :=
                     js "An unexpected error occurred. Please try again later.";
                   errors := None |};
              status := 500 |}).

(** The response of a request, the console being empty before. *)
Definition respond (request : NextRequest) : result NextResponse :=
  fst (POST request []).

(** What the interface description says a submission must be: [name] a
    string of 2 to 50 characters, [email] a valid address, [message] a
    string of 10 to 1000 characters. *)
Definition well_formed_submission (body : json) : Prop :=
  exists n e m,
    get body (js "name") = Some (JString n) /\
    2 <= str_length n <= 50 /\
    get body (js "email") = Some (JString e) /\
    is_email e = true /\
    get body (js "message") = Some (JString m) /\
    10 <= str_length m <= 1000.

End Route.

(** A body and stand-ins for the library parts, used as examples. *)
Definition sample_body : json :=
  JObject [(js "name", JString (js "Tim"));
           (js "email", JString (js "tim@example.com"));
           (js "message", JString (js "Hello from the contact form."))].

Definition contains_at (s : js_string) : bool :=
  existsb (N.eqb 64) s.

Definition send_fails (_ : Email) : result unit :=
  Throw (Error "the mail service is down").

End Contact.

(** ** Runs of the cycler: steps, delays, and the caller in [Hero] *)

Module CyclerRun.
Import Cycler.

(** The delay a step waits for: that of the timer its effect arms, and
    none when the effect calls its setters at once. *)
Definition delay_of (e : scheduled) : Z :=
  match timer e with
  | Some ms => ms
  | None => 0
  end.

(** The delays of the timers armed during [n] steps from [s], added up. *)
Fixpoint delays (p : TypingEffectProps) (n : nat) (s : State) : result Z :=
  match n with
  | O => Ok 0
  | S k =>
      bind (advance p s) (fun s' =>
      bind (delays p k s') (fun d =>
      Ok (delay_of (useEffect p s) + d)))
  end.

(** The steps one phrase takes: a tick per code unit to type it, the step
    that sets the pause, the pause, a tick per code unit to delete it, and
    the step to the next phrase. *)
Definition steps_of_phrase (ph : js_string) : nat :=
  List.length ph + 2 + List.length ph + 1.

Definition steps_of_phrases (phs : list js_string) : nat :=
  list_sum (map steps_of_phrase phs).

(** The delays one phrase takes. *)
Definition delay_of_phrase (p : TypingEffectProps) (ph : js_string) : Z :=
  str_length ph * typingSpeed_of p + pauseDuration_of p
  + str_length ph * deletingSpeed_of p.

Fixpoint delay_of_phrases (p : TypingEffectProps) (phs : list js_string) : Z :=
  match phs with
  | [] => 0
  | ph :: rest => delay_of_phrase p ph + delay_of_phrases p rest
  end.

(** The typing state at position [i] with empty text. *)
Definition start_of (i : nat) : State := mk (Num (Z.of_nat i)) [] false false.

(** The props [Hero] gives the component. *)
Definition hero_props : TypingEffectProps :=
  {| phrases := [js "developing full-stack apps";
                 js "playing volleyball";
                 js "film photography";
                 js "the next recipe to make";
                 js "where to travel next"];
     typingSpeed := Some 80;
     deletingSpeed := Some 40;
     pauseDuration := Some 1500;
     className := Some (js "text-accent-warm font-semibold") |}.

(** Props with an empty phrase after ["a"]. *)
Definition a_empty_props : TypingEffectProps :=
  {| phrases := [js "a"; []];
     typingSpeed := None;
     deletingSpeed := None;
     pauseDuration := None;
     className := None |}.

End CyclerRun.

(** ** The route's sanitising, its mail, and its earlier version *)

Module JSString.

(** The code units [trim] removes: the white space and line terminator
    characters of the language (tab, line feed, vertical tab, form feed,
    carriage return, space, no-break space, the space separators U+1680,
    U+2000 to U+200A, U+202F, U+205F and U+3000, the line and paragraph
    separators, and the byte order mark). *)
Definition is_whitespace (c : code_unit) : bool :=
  existsb (N.eqb c)
    [9; 10; 11; 12; 13; 32; 160; 5760; 8232; 8233; 8239; 8287; 12288; 65279]%N
  || (N.leb 8192 c && N.leb c 8202).

Fixpoint trimStart (s : js_string) : js_string :=
  match s with
  | [] => []
  | c :: rest => if is_whitespace c then trimStart rest else s
  end.

Definition trimEnd (s : js_string) : js_string := rev (trimStart (rev s)).

(** [s.trim()] *)
Definition trim (s : js_string) : js_string := trimEnd (trimStart s).

End JSString.

Module ContactMail.
Import Contact.

Section Sanitize.

Variable trim : js_string -> js_string.
Variable toLowerCase : js_string -> js_string.
Variable toISOString_now : js_string.

(** The three sanitised values of the handler. *)
Definition sanitizedName (data : ContactData) : js_string :=
  strip_angle_brackets (trim (name data)).
Definition sanitizedEmail (data : ContactData) : js_string :=
  toLowerCase (trim (email_address data)).
Definition sanitizedMessage (data : ContactData) : js_string :=
  strip_angle_brackets (trim (message data)).

(** The pieces of text of the [html] template between the inserted
    values. *)
Definition html_head : js_string :=
  nl ++ js "          <h2>New Contact Form Submission</h2>" ++ nl
     ++ js "          <p><strong>From:</strong> ".
Definition html_after_name : js_string :=
  js "</p>" ++ nl ++ js "          <p><strong>Email:</strong> ".
Definition html_after_email : js_string :=
  js "</p>" ++ nl ++ js "          <p><strong>Message:</strong></p>" ++ nl
            ++ js "          <p>".
Definition html_tail : js_string :=
  js "</p>" ++ nl ++ js "        ".

(** The argument the handler gives to [resend.emails.send]. *)
Definition contact_email (data : ContactData) : Email :=
  {| from := js "onboarding@resend.dev";
     to := js "timlee.dev@gmail.com";
     replyTo := sanitizedEmail data;
     subject := js "Portfolio Contact from " ++ sanitizedName data;
     text := js "Name: " ++ sanitizedName data ++ nl
             ++ js "Email: " ++ sanitizedEmail data ++ nl ++ nl
             ++ js "Message:" ++ nl ++ sanitizedMessage data;
     html := html_head ++ sanitizedName data
             ++ html_after_name ++ sanitizedEmail data
             ++ html_after_email ++ newlines_to_br (sanitizedMessage data)
             ++ html_tail |}.

(** What the handler writes to the console, given what sending did. *)
Definition console_for (data : ContactData) (sent : result unit)
  : list console_call :=
  match sent with
  | Ok _ =>
      [console_log [js "Contact form submission received and emailed:"];
       console_log [js "Name:"; sanitizedName data];
       console_log [js "Email:"; sanitizedEmail data];
       console_log [js "Timestamp:"; toISOString_now]]
  | Throw e => [console_error (js "Failed to send email:") e]
  end.

End Sanitize.

(** The response of the handler to an accepted submission. *)
Definition ok_response : NextResponse :=
  {| response_body :=
       {| success := true;
          response_message :=
            js "Message received successfully! Thank you for reaching out.";
          errors := None |};
     status := 200 |}.

(** How often the code unit [c] occurs in [s]. *)
Definition occurrences (c : code_unit) (s : js_string) : nat :=
  count_occ N.eq_dec s c.

(** What is asked of each field of a submission. *)
Definition name_ok (body : json) : Prop :=
  exists s, get body (js "name") = Some (JString s) /\ 2 <= str_length s <= 50.
Definition email_ok (is_email : js_string -> bool) (body : json) : Prop :=
  exists s, get body (js "email") = Some (JString s) /\ is_email s = true.
Definition message_ok (body : json) : Prop :=
  exists s, get body (js "message") = Some (JString s) /\
            10 <= str_length s <= 1000.

(** A body with a blank name, a body with a short name and a number for
    the address, and a send that succeeds. *)
Definition blank_body : json :=
  JObject [(js "name", JString (js "   "));
           (js "email", JString (js "tim@example.com"));
           (js "message", JString (js "Hello from the contact form."))].

Definition send_succeeds (_ : Email) : result unit := Ok tt.

Definition bad_body : json :=
  JObject [(js "name", JString (js "T"));
           (js "email", JNumber 7 0);
           (js "message", JString (js "Hello from the contact form."))].

End ContactMail.

(** The earlier version of the route: the same schema, no mail; the
    submission is written to the console. *)
Module ContactLogOnly.
Import Contact.

Section Route.

Variable is_email : js_string -> bool.
Variable trim : js_string -> js_string.
Variable toLowerCase : js_string -> js_string.
Variable toISOString_now : js_string.

Local Open Scope handler_scope.

Definition POST (request : NextRequest) : M NextResponse :=
  try_catch
    (body <- lift (request_json request) ;;
     match contactSchema_safeParse is_email body with
     | Failure _ fieldErrors =>
         ret {| response_body :=
                  {| success := false;
                     response_message := js "Validation failed";
                     errors := Some fieldErrors |};
                status := 400 |}
     | Success data =>
         let sanitizedName := strip_angle_brackets (trim (name data)) in
         let sanitizedEmail := toLowerCase (trim (email_address data)) in
         let sanitizedMessage := strip_angle_brackets (trim (message data)) in
         print (console_log [js "Contact form submission received:"]) ;;
         print (console_log [js "Name:"; sanitizedName]) ;;
         print (console_log [js "Email:"; sanitizedEmail]) ;;
         print (console_log [js "Message:"; sanitizedMessage]) ;;
         print (console_log [js "Timestamp:"; toISOString_now]) ;;
         ret {| response_body :=
                  {| success := true;
                     response_message :=
                       js "Message received successfully! Thank you for reaching out.";
                     errors := None |};
                status := 200 |}
     end)
    (fun error =>
       print (console_error (js "Contact form error:") error) ;;
       ret {| response_body :=
                {| success := false;
                   response_message :=
                     js "An unexpected error occurred. Please try again later.";
                   errors := None |};
              status := 500 |}).

End Route.

End ContactLogOnly.

(** ** The form: [Contact] and its [onSubmit] *)

Module ContactForm.
Import Contact.

(** The client's schema: the checks of the route's schema, each with the
    message the form shows. *)
Definition name_checks : list (check * js_string) :=
  [(min 2, js "Name must be at least 2 characters");
   (max 50, js "Name must be less than 50 characters")].
Definition email_checks : list (check * js_string) :=
  [(email, js "Please enter a valid email address")].
Definition message_checks : list (check * js_string) :=
  [(min 10, js "Message must be at least 10 characters");
   (max 1000, js "Message must be less than 1000 characters")].

(** [submitStatus] *)
Inductive SubmitStatus := idle | loading | succeeded | failed.

(** The two state cells of the component. *)
Record FormState := {
  submitStatus : SubmitStatus;
  errorMessage : js_string
}.

(** A value that is thrown or rejects a promise: an [Error] object with
    its message, or something that is no [Error]. *)
Inductive thrown :=
| ErrorObject (error_message : js_string)
| NotAnError.

Inductive settled (A : Type) :=
| Fulfilled (a : A)
| Rejected (reason : thrown).
Arguments Fulfilled {A} a.
Arguments Rejected {A} reason.

(** A response of [fetch]: [response.ok] and what [response.json()]
    settles to. *)
Record Response := {
  ok : bool;
  response_json : settled json
}.

(** The second argument of [fetch].  The body, a JSON text, is given by
    the value it denotes. *)
Record RequestInit := {
  method : js_string;
  headers : list (js_string * js_string);
  body : json
}.

(** [JSON.stringify(data)], as the value the text denotes. *)
Definition JSON_of (data : ContactData) : json :=
  JObject [(js "name", JString (name data));
           (js "email", JString (email_address data));
           (js "message", JString (message data))].

(** The request [onSubmit] sends to ["/api/contact"]. *)
Definition the_request (data : ContactData) : RequestInit :=
  {| method := js "POST";
     headers := [(js "Content-Type", js "application/json")];
     body := JSON_of data |}.

(** What [onSubmit] does to the component, in order. *)
Inductive effect :=
| setSubmitStatus (s : SubmitStatus)
| setErrorMessage (m : js_string)
| reset
| setTimeout_setSubmitStatus (s : SubmitStatus) (ms : Z).

Definition apply_effect (st : FormState) (e : effect) : FormState :=
  match e with
  | setSubmitStatus s =>
      {| submitStatus := s; errorMessage := errorMessage st |}
  | setErrorMessage m =>
      {| submitStatus := submitStatus st; errorMessage := m |}
  | reset => st
  | setTimeout_setSubmitStatus _ _ => st
  end.

(** The state after the effects, the timer not yet fired. *)
Definition state_after (st : FormState) (effects : list effect) : FormState :=
  fold_left apply_effect effects st.

(** [v] in a condition: [undefined], [null], [false], [0] and [""] count
    as false. *)
Definition truthy (v : option json) : bool :=
  match v with
  | None => false
  | Some JNull => false
  | Some (JBool b) => b
  | Some (JNumber mantissa _) => negb (mantissa =? 0)
  | Some (JString s) => negb (str_eqb s [])
  | Some (JArray _) => true
  | Some (JObject _) => true
  end.

Section Form.

(** The parts of the run-time the form relies on: how a number reads as a
    string, the message of the [TypeError] for a property of [null], and
    the network. *)
Variable Number_toString : Z -> Z -> js_string.
Variable null_property_message : js_string.
Variable is_email : js_string -> bool.
Variable fetch : js_string -> RequestInit -> settled Response.

(** The messages of the checks of a field that fail for [value]. *)
Definition field_messages (checks : list (check * js_string))
  (value : js_string) : list js_string :=
  flat_map
    (fun c => match run_check is_email (fst c) value with
              | [] => []
              | _ => [snd c]
              end)
    checks.

(** The fields of the form that fail the client's schema, each with its
    messages. *)
Definition client_errors (values : ContactData)
  : list (js_string * list js_string) :=
  filter (fun f => match snd f with [] => false | _ => true end)
    [(js "name", field_messages name_checks (name values));
     (js "email", field_messages email_checks (email_address values));
     (js "message", field_messages message_checks (message values))].

(** The string [new Error(v)] takes as its message. *)
Fixpoint ToString (v : json) : js_string :=
  match v with
  | JNull => js "null"
  | JBool b => if b then js "true" else js "false"
  | JNumber mantissa exponent => Number_toString mantissa exponent
  | JString s => s
  | JArray items =>
      (fix join (l : list json) : js_string :=
         match l with
         | [] => []
         | x :: rest =>
             match x with JNull => [] | _ => ToString x end
             ++ match rest with
                | [] => []
                | _ :: _ => js "," ++ join rest
                end
         end) items
  | JObject _ => js "[object Object]"
  end.

(** [errorData.message]: reading a property of [null] throws. *)
Definition read_message (errorData : json) : settled (option json) :=
  match errorData with
  | JNull => Rejected (ErrorObject null_property_message)
  | JObject members => Fulfilled (lookup (js "message") members)
  | _ => Fulfilled None
  end.

(** The [catch] block. *)
Definition caught (error : thrown) : list effect :=
  [setSubmitStatus failed;
   setErrorMessage
     match error with
     | ErrorObject m => m
     | NotAnError => js "An unexpected error occurred"
     end].

(** [onSubmit(data)] *)
Definition onSubmit (data : ContactData) : list effect :=
  [setSubmitStatus loading; setErrorMessage []]
  ++ match fetch (js "/api/contact")
             {| method := js "POST";
                headers := [(js "Content-Type", js "application/json")];
                body := JSON_of data |} with
     | Rejected error => caught error
     | Fulfilled response =>
         if negb (ok response) then
           match response_json response with
           | Rejected error => caught error
           | Fulfilled errorData =>
               match read_message errorData with
               | Rejected error => caught error
               | Fulfilled v =>
                   caught (ErrorObject
                             (if truthy v
                              then match v with
                                   | Some v' => ToString v'
                                   | None => []
                                   end
                              else js "Failed to send message"))
               end
           end
         else
           [setSubmitStatus succeeded; reset;
            setTimeout_setSubmitStatus idle 5000]
     end.

(** [handleSubmit(onSubmit)] for the values of the form: [onSubmit] runs
    only when the client's schema has no error. *)
Definition handleSubmit (values : ContactData) : option (list effect) :=
  match client_errors values with
  | [] => Some (onSubmit values)
  | _ :: _ => None
  end.

End Form.

(** What the form shows under the button. *)
Definition banner (st : FormState) : option js_string :=
  match submitStatus st with
  | succeeded => Some (js "Message sent successfully! I'll get back to you soon.")
  | failed =>
      Some (if str_eqb (errorMessage st) []
            then js "Failed to send message. Please try again."
            else errorMessage st)
  | _ => None
  end.

(** The route behind [fetch]: how a response of the handler reaches the
    form. *)
Section Network.

Variable issue_message : issue -> js_string.
Variable not_json_message : js_string.
Variable is_email : js_string -> bool.
Variable trim : js_string -> js_string.
Variable toLowerCase : js_string -> js_string.
Variable toISOString_now : js_string.
Variable resend_emails_send : Email -> result unit.

(** The JSON [NextResponse.json] writes for a body. *)
Definition json_of_body (b : ResponseBody) : json :=
  JObject
    ([(js "success", JBool (success b));
      (js "message", JString (response_message b))]
     ++ match errors b with
        | Some fieldErrors =>
            [(js "errors",
              JObject
                (map (fun f =>
                        (fst f,
                         JArray (map (fun i => JString (issue_message i))
                                   (snd f))))
                   fieldErrors))]
        | None => []
        end).

Definition wire (r : NextResponse) : Response :=
  {| ok := (200 <=? status r) && (status r <=? 299);
     response_json := Fulfilled (json_of_body (response_body r)) |}.

(** [fetch] when the network delivers the request to the route and its
    response back.  A request the route does not serve, and a handler
    that throws, give a response that is not ok and has no JSON body. *)
Definition route_fetch (url : js_string) (init : RequestInit)
  : settled Response :=
  let no_json :=
    {| ok := false;
       response_json := Rejected (ErrorObject not_json_message) |} in
  if str_eqb url (js "/api/contact") && str_eqb (method init) (js "POST") then
    match respond is_email trim toLowerCase toISOString_now
            resend_emails_send {| request_json := Ok (body init) |} with
    | Ok r => Fulfilled (wire r)
    | Throw _ => Fulfilled no_json
    end
  else Fulfilled no_json.

End Network.

(** Values of the form, and a [fetch] that fails. *)
Definition sample_values : ContactData :=
  {| name := js "Tim";
     email_address := js "tim@example.com";
     message := js "Hello from the contact form." |}.

Definition fetch_fails (_ : js_string) (_ : RequestInit) : settled Response :=
  Rejected (ErrorObject (js "Failed to fetch")).

Definition fetch_rate_limited (_ : js_string) (_ : RequestInit)
  : settled Response :=
  Fulfilled {| ok := false;
               response_json :=
                 Fulfilled (JObject [(js "message",
                                      JString (js "Too many requests"))]) |}.

End ContactForm.

(** ** Facts about strings and slices *)

Module JSFacts.

Lemma str_eqb_eq (a b : js_string) : str_eqb a b = true <-> a = b.
Proof.
  revert b; induction a as [|x a IH]; intros [|y b]; simpl;
    try (split; [discriminate | discriminate]); try tauto.
  rewrite andb_true_iff, N.eqb_eq, IH.
  split; [intros [-> ->]; reflexivity | intros H; inversion H; auto].
Qed.

Lemma str_eqb_refl (a : js_string) : str_eqb a a = true.
Proof. apply str_eqb_eq; reflexivity. Qed.

Lemma str_eqb_neq (a b : js_string) : a <> b -> str_eqb a b = false.
Proof.
  intros H; destruct (str_eqb a b) eqn:E; [|reflexivity].
  apply str_eqb_eq in E; contradiction.
Qed.

Lemma is_prefix_app (t ph : js_string) :
  is_prefix t ph = true <-> exists rest, ph = t ++ rest.
Proof.
  revert ph; induction t as [|x t IH]; intros ph; simpl.
  - split; [intros _; exists ph; reflexivity | reflexivity].
  - destruct ph as [|y ph].
    + split; [discriminate | intros [r H]; discriminate].
    + rewrite andb_true_iff, N.eqb_eq, IH. split.
      * intros [-> [r ->]]; exists r; reflexivity.
      * intros [r H]; inversion H; subst; split; [reflexivity | exists r; reflexivity].
Qed.

Lemma is_prefix_nil (ph : js_string) : is_prefix [] ph = true.
Proof. reflexivity. Qed.

Lemma is_prefix_refl (ph : js_string) : is_prefix ph ph = true.
Proof. apply is_prefix_app; exists []; symmetry; apply app_nil_r. Qed.

Lemma is_prefix_firstn (n : nat) (ph : js_string) :
  is_prefix (firstn n ph) ph = true.
Proof.
  apply is_prefix_app; exists (skipn n ph); symmetry; apply firstn_skipn.
Qed.

Lemma is_prefix_removelast (t ph : js_string) :
  is_prefix t ph = true -> is_prefix (removelast t) ph = true.
Proof.
  rewrite !is_prefix_app; intros [r ->].
  destruct t as [|x t0]; [exists r; reflexivity|].
  destruct (@exists_last _ (x :: t0)) as [t' [c E]]; [discriminate|].
  rewrite E, removelast_last, <- app_assoc; eexists; reflexivity.
Qed.

(** [s.slice(0, -1)] drops the last code unit (and leaves [""] as it is). *)
Lemma slice_0_m1 (s : js_string) : slice s 0 (-1) = removelast s.
Proof.
  unfold slice, str_length; simpl.
  rewrite removelast_firstn_len.
  replace (Z.min 0 (Z.of_nat (List.length s))) with 0 by lia.
  simpl. f_equal. lia.
Qed.

(** [s.slice(0, e)] for [e >= 0] keeps the first [e] code units. *)
Lemma slice_0_take (s : js_string) (e : Z) :
  0 <= e -> slice s 0 e = firstn (Z.to_nat e) s.
Proof.
  intros He; unfold slice, str_length.
  replace (e <? 0) with false by (symmetry; apply Z.ltb_ge; lia).
  replace (0 <? 0) with false by reflexivity.
  replace (Z.min 0 (Z.of_nat (List.length s))) with 0 by lia.
  simpl skipn.
  destruct (Z_le_gt_dec e (Z.of_nat (List.length s))).
  - f_equal; lia.
  - rewrite !firstn_all2 by lia; reflexivity.
Qed.

Lemma index_nat {A : Type} (a : list A) (i : nat) :
  index a (Num (Z.of_nat i)) = nth_error a i.
Proof.
  unfold index.
  replace (Z.of_nat i <? 0) with false by (symmetry; apply Z.ltb_ge; lia).
  rewrite Nat2Z.id; reflexivity.
Qed.

Lemma index_nil {A : Type} (i : number) : index (@nil A) i = None.
Proof.
  destruct i as [z|]; simpl; [|reflexivity].
  destruct (z <? 0); [reflexivity | destruct (Z.to_nat z); reflexivity].
Qed.

Lemma index_in_range {A : Type} (a : list A) (i : number) (x : A) :
  index a i = Some x -> exists n : nat, i = Num (Z.of_nat n) /\ (n < List.length a)%nat.
Proof.
  destruct i as [z|]; simpl; [|discriminate].
  destruct (z <? 0) eqn:E; [discriminate|]. apply Z.ltb_ge in E.
  intros H. exists (Z.to_nat z). split.
  - rewrite Z2Nat.id by lia; reflexivity.
  - apply nth_error_Some; congruence.
Qed.

End JSFacts.

(** ** The steps of the cycler *)

Module CyclerFacts.
Import Cycler JSFacts.

Lemma state_eta (s : State) :
  s = mk (currentPhraseIndex s) (currentText s) (isDeleting s) (isPaused s).
Proof. destruct s; reflexivity. Qed.

(** The pause timer fires. *)
Lemma advance_paused p i t d :
  advance p (mk i t d true) = Ok (mk i t true false).
Proof. reflexivity. Qed.

(** The phrase is typed out: the effect sets [isPaused] without a timer. *)
Lemma advance_typed_out p i ph :
  index (phrases p) i = Some ph ->
  advance p (mk i ph false false) = Ok (mk i ph false true).
Proof.
  intros H; unfold advance, useEffect; simpl.
  rewrite H; simpl; rewrite str_eqb_refl; reflexivity.
Qed.

(** A typing tick. *)
Lemma advance_typing p i ph t :
  index (phrases p) i = Some ph -> t <> ph ->
  advance p (mk i t false false)
  = Ok (mk i (firstn (S (List.length t)) ph) false false).
Proof.
  intros H Hne; unfold advance, useEffect; simpl.
  rewrite H; simpl; rewrite (str_eqb_neq _ _ Hne); simpl.
  rewrite slice_0_take by (unfold str_length; lia).
  replace (Z.to_nat (str_length t + 1)) with (S (List.length t))
    by (unfold str_length; lia).
  reflexivity.
Qed.

(** A typing tick when the active phrase is [undefined]. *)
Lemma advance_typing_undefined p i t :
  index (phrases p) i = None ->
  advance p (mk i t false false) = Throw TypeError.
Proof.
  intros H; unfold advance, useEffect; simpl; rewrite H; reflexivity.
Qed.

(** The text is deleted: the effect moves to the next phrase without a
    timer. *)
Lemma advance_deleted p i :
  advance p (mk i [] true false)
  = Ok (mk (rem (add i (Num 1)) (Num (arr_length (phrases p)))) [] false false).
Proof. reflexivity. Qed.

(** A deleting tick. *)
Lemma advance_deleting p i t :
  t <> [] ->
  advance p (mk i t true false) = Ok (mk i (removelast t) true false).
Proof.
  intros Hne; unfold advance, useEffect; simpl.
  rewrite (str_eqb_neq _ _ Hne); simpl.
  rewrite slice_0_m1; reflexivity.
Qed.

Lemma advance_n_snoc p n s :
  advance_n p (S n) s = bind (advance_n p n s) (advance p).
Proof.
  revert s; induction n as [|n IH]; intros s.
  - simpl; destruct (advance p s); reflexivity.
  - change (advance_n p (S (S n)) s)
      with (bind (advance p s) (advance_n p (S n))).
    change (advance_n p (S n) s) with (bind (advance p s) (advance_n p n)).
    destruct (advance p s) as [s1|e]; [|reflexivity].
    change (advance_n p (S n) s1 = bind (advance_n p n s1) (advance p)).
    apply IH.
Qed.

Lemma advance_n_add p a b s :
  advance_n p (a + b) s = bind (advance_n p a s) (advance_n p b).
Proof.
  revert s; induction a as [|a IH]; intros s; simpl; [reflexivity|].
  destruct (advance p s); simpl; [apply IH | reflexivity].
Qed.

Lemma reachable_advance_n p n s s' :
  reachable p s -> advance_n p n s = Ok s' -> reachable p s'.
Proof.
  revert s; induction n as [|n IH]; intros s Hs; simpl.
  - intros H; inversion H; subst; assumption.
  - destruct (advance p s) as [s1|e] eqn:E; simpl; [|discriminate].
    apply IH. eapply reach_advance; eassumption.
Qed.

(** The index of a non-negative position advances within the list. *)
Lemma next_index (i len : nat) :
  (0 < len)%nat ->
  rem (add (Num (Z.of_nat i)) (Num 1)) (Num (Z.of_nat len))
  = Num (Z.of_nat ((i + 1) mod len)).
Proof.
  intros Hlen; simpl.
  replace (Z.of_nat len =? 0) with false by (symmetry; apply Z.eqb_neq; lia).
  f_equal. rewrite Z.rem_mod_nonneg by lia.
  rewrite Nat2Z.inj_mod, Nat2Z.inj_add; reflexivity.
Qed.

(** The step from a state in which the text is a prefix of the active
    phrase: it never throws, and it gives such a state again. *)
Lemma advance_displays_prefix p s :
  displays_prefix p s ->
  exists s', advance p s = Ok s' /\ displays_prefix p s'.
Proof.
  unfold displays_prefix.
  destruct s as [i t d pz]; simpl.
  change (Build_State i t d pz) with (mk i t d pz).
  destruct (index (phrases p) i) as [ph|] eqn:Hi; [|contradiction].
  intros Hpre. destruct pz.
  - eexists; split; [apply advance_paused|]. simpl; rewrite Hi; assumption.
  - destruct d.
    + destruct t as [|c t].
      * destruct (index_in_range _ _ _ Hi) as [n [-> Hn]].
        eexists; split; [apply advance_deleted|].
        unfold mk; cbn [currentPhraseIndex currentText].
        unfold arr_length. rewrite next_index by lia. rewrite index_nat.
        destruct (nth_error (phrases p) ((n + 1) mod List.length (phrases p)))
          eqn:E; [reflexivity|].
        apply nth_error_None in E.
        pose proof (Nat.mod_upper_bound (n + 1) (List.length (phrases p))).
        lia.
      * eexists; split; [apply advance_deleting; discriminate|].
        unfold mk; cbn [currentPhraseIndex currentText]; rewrite Hi.
        apply is_prefix_removelast; assumption.
    + destruct (list_eq_dec N.eq_dec t ph) as [->|Hne].
      * eexists; split; [apply advance_typed_out; assumption|].
        simpl; rewrite Hi; assumption.
      * eexists; split; [apply advance_typing; eassumption|].
        unfold mk; cbn [currentPhraseIndex currentText]; rewrite Hi.
        apply is_prefix_firstn.
Qed.

Lemma initial_displays_prefix p :
  phrases p <> [] -> displays_prefix p initial.
Proof.
  unfold displays_prefix; simpl.
  destruct (phrases p); [congruence | reflexivity].
Qed.

Lemma reachable_displays_prefix p s :
  phrases p <> [] -> reachable p s -> displays_prefix p s.
Proof.
  intros Hne Hr; induction Hr as [s Hm | s s' Hr IH Hs].
  - inversion Hm; subst; apply initial_displays_prefix; assumption.
  - destruct (advance_displays_prefix p s IH) as [s'' [E Hpre]].
    congruence.
Qed.

(** With no phrase, mounting is the only reachable state. *)
Lemma reachable_no_phrase p s :
  phrases p = [] -> reachable p s -> s = initial.
Proof.
  intros He Hr; induction Hr as [s Hm | s s' Hr IH Hs].
  - inversion Hm; reflexivity.
  - subst s. unfold initial in Hs.
    change (advance p (mk (Num 0) [] false false) = Ok s') in Hs.
    rewrite advance_typing_undefined in Hs by (rewrite He; apply index_nil).
    discriminate.
Qed.

Lemma flags_step p s s' :
  isDeleting s && isPaused s = false ->
  advance p s = Ok s' ->
  isDeleting s' && isPaused s' = false.
Proof.
  destruct s as [i t d pz]; simpl; intros Hf.
  unfold advance, useEffect; simpl.
  destruct pz; simpl.
  - intros H; inversion H; reflexivity.
  - destruct d; simpl.
    + destruct (str_eqb t []); simpl; intros H; inversion H; reflexivity.
    + destruct (strict_eq t (index (phrases p) i)); simpl.
      * intros H; inversion H; reflexivity.
      * destruct (index (phrases p) i); simpl; intros H; inversion H; reflexivity.
Qed.

(** Two texts of different lengths differ. *)
Ltac differ_in_length :=
  let E := fresh "E" in
  intros E; apply (f_equal (@List.length _)) in E;
  rewrite firstn_length_le in E by lia; simpl in E; lia.

(** Typing ticks from the empty text build the prefixes of the phrase. *)
Lemma typing_run p i ph (k : nat) :
  index (phrases p) i = Some ph ->
  (k <= List.length ph)%nat ->
  advance_n p k (mk i [] false false) = Ok (mk i (firstn k ph) false false).
Proof.
  intros Hi; induction k as [|k IH]; intros Hk; [reflexivity|].
  rewrite advance_n_snoc, IH by lia.
  change (advance p (mk i (firstn k ph) false false)
          = Ok (mk i (firstn (S k) ph) false false)).
  rewrite (advance_typing p i ph) by (try assumption; differ_in_length).
  rewrite firstn_length_le by lia; reflexivity.
Qed.

(** Deleting ticks from the full phrase go down through its prefixes. *)
Lemma deleting_run p i ph (k : nat) :
  (k <= List.length ph)%nat ->
  advance_n p k (mk i ph true false)
  = Ok (mk i (firstn (List.length ph - k) ph) true false).
Proof.
  induction k as [|k IH]; intros Hk.
  - rewrite Nat.sub_0_r, firstn_all; reflexivity.
  - rewrite advance_n_snoc, IH by lia.
    change (advance p (mk i (firstn (List.length ph - k) ph) true false)
            = Ok (mk i (firstn (List.length ph - S k) ph) true false)).
    rewrite advance_deleting by differ_in_length.
    replace (List.length ph - k)%nat with (S (List.length ph - S k)) by lia.
    rewrite removelast_firstn by lia; reflexivity.
Qed.

End CyclerFacts.

(** ** The phrase cycler: invariants, phases and errors *)

Module PhraseCycler.
Import Cycler JSFacts CyclerFacts.

Lemma firstn_snoc (ph : js_string) (k : nat) (c : code_unit) :
  nth_error ph k = Some c -> firstn (S k) ph = firstn k ph ++ [c].
Proof.
  revert k; induction ph as [|x ph IH]; intros [|k] H; try discriminate.
  - inversion H; reflexivity.
  - simpl in H. change (x :: firstn (S k) ph = x :: (firstn k ph ++ [c])).
    f_equal; apply IH; assumption.
Qed.

Lemma timer_typing p i ph t :
  index (phrases p) i = Some ph -> t <> ph ->
  timer (useEffect p (mk i t false false)) = Some (typingSpeed_of p).
Proof.
  intros Hi Hne; unfold useEffect; simpl.
  rewrite Hi; simpl; rewrite (str_eqb_neq _ _ Hne); reflexivity.
Qed.

Lemma timer_deleting p i t :
  t <> [] ->
  timer (useEffect p (mk i t true false)) = Some (deletingSpeed_of p).
Proof.
  intros Hne; unfold useEffect; simpl.
  rewrite (str_eqb_neq _ _ Hne); reflexivity.
Qed.

(** C1: for a non-empty phrase list, in every state reachable from the
    mounted state (typing, index 0, empty text) the displayed text is a
    prefix of [phrases[currentPhraseIndex]]; and every step (typing tick,
    pause transition, deleting tick, move to the next phrase) taken from a
    state with that property gives a state with that property. *)
Theorem displayed_text_is_prefix p :
  phrases p <> [] ->
  (forall s, reachable p s -> displays_prefix p s) /\
  (forall s s',
      displays_prefix p s -> advance p s = Ok s' -> displays_prefix p s').
Proof.
  intros Hne; split.
  - intros s Hr; apply reachable_displays_prefix; assumption.
  - intros s s' Hpre Hs.
    destruct (advance_displays_prefix p s Hpre) as [s'' [E Hpre']].
    congruence.
Qed.

Lemma displayed_text_is_prefix_witness :
  phrases hi_props <> [] /\
  displays_prefix hi_props (mk (Num 0) (js "h") false false).
Proof.
  split; [discriminate|].
  apply (proj1 (displayed_text_is_prefix hi_props ltac:(discriminate))).
  eapply reach_advance; [apply reach_mount; reflexivity | reflexivity].
Defined.

(** C2, as the code has it: in a reachable state a step never throws when
    the phrase list is non-empty; when the list is empty the step is not a
    no-op, it throws a [TypeError] (the active phrase is [undefined] and
    the typing tick reads its [slice]). *)
Theorem advance_throws_only_without_phrases p s :
  reachable p s ->
  (phrases p <> [] -> exists s', advance p s = Ok s') /\
  (phrases p = [] -> advance p s = Throw TypeError).
Proof.
  intros Hr; split.
  - intros Hne.
    destruct (advance_displays_prefix p s
                (reachable_displays_prefix p s Hne Hr)) as [s' [E _]].
    exists s'; exact E.
  - intros He. rewrite (reachable_no_phrase p s He Hr).
    apply (advance_typing_undefined p (Num 0) []).
    rewrite He; apply index_nil.
Qed.

Lemma advance_throws_only_without_phrases_witness :
  (exists s', advance hi_props initial = Ok s') /\
  advance no_phrase_props initial = Throw TypeError.
Proof.
  split.
  - apply (proj1 (advance_throws_only_without_phrases hi_props initial
                    (reach_mount hi_props initial eq_refl))).
    discriminate.
  - apply (proj2 (advance_throws_only_without_phrases no_phrase_props initial
                    (reach_mount no_phrase_props initial eq_refl))).
    reflexivity.
Defined.

(** C2 as stated fails: with an empty phrase list the first step from the
    mounted state throws; it does not leave the state unchanged. *)
Lemma advance_no_phrase_throws :
  mount no_phrase_props = Ok initial /\
  advance no_phrase_props initial = Throw TypeError /\
  advance no_phrase_props initial <> Ok initial.
Proof.
  split; [reflexivity|]. split; [reflexivity|]. discriminate.
Qed.

(** C3, as the code has it: mounting checks nothing; for every props,
    whatever the intervals, it gives the initial state, and the intervals
    only set the delays of the timers: the steps are those of any other
    props with the same phrases. *)
Theorem mount_checks_nothing p :
  mount p = Ok initial /\
  forall ts ds pd s,
    advance {| phrases := phrases p; typingSpeed := ts; deletingSpeed := ds;
               pauseDuration := pd; className := className p |} s
    = advance p s.
Proof.
  split; [reflexivity|].
  intros ts ds pd [i t d pz]; unfold advance, useEffect; simpl.
  destruct pz; [reflexivity|].
  destruct (negb d && strict_eq t (index (phrases p) i)); [reflexivity|].
  destruct (d && str_eqb t []); reflexivity.
Qed.

(** C3 as stated fails: with a zero typing interval and a negative
    deleting interval, mounting does not fail. *)
Lemma mount_bad_interval_succeeds :
  typingSpeed_of bad_interval_props = 0 /\
  deletingSpeed_of bad_interval_props = -5 /\
  mount bad_interval_props = Ok initial /\
  ~ (exists e, mount bad_interval_props = Throw e).
Proof.
  split; [reflexivity|]. split; [reflexivity|]. split; [reflexivity|].
  intros [e H]; discriminate.
Qed.

(** C4: with the active phrase [phrase] (so the list is non-empty), from
    the typing state with empty text: each typing tick is a timer of
    [typingSpeed] and appends the next code unit of the phrase; after [k]
    ticks the text is the first [k] units, still typing; after
    [len phrase] ticks the text is the phrase, and the effect of that
    render sets [isPaused] at once, without a timer. *)
Theorem typing_phase_completes p i phrase :
  index (phrases p) i = Some phrase ->
  let typing := fun t => mk i t false false in
  (forall k c, nth_error phrase k = Some c ->
     timer (useEffect p (typing (firstn k phrase))) = Some (typingSpeed_of p) /\
     advance p (typing (firstn k phrase))
     = Ok (typing (firstn k phrase ++ [c]))) /\
  (forall k, (k <= List.length phrase)%nat ->
     advance_n p k (typing []) = Ok (typing (firstn k phrase))) /\
  advance_n p (List.length phrase) (typing []) = Ok (typing phrase) /\
  timer (useEffect p (typing phrase)) = None /\
  advance p (typing phrase) = Ok (mk i phrase false true) /\
  phase_of (mk i phrase false true) = Some Paused.
Proof.
  intros Hi typing; unfold typing; repeat split.
  - assert (k < List.length phrase)%nat by (apply nth_error_Some; congruence).
    apply (timer_typing p i phrase); [assumption | differ_in_length].
  - assert (k < List.length phrase)%nat by (apply nth_error_Some; congruence).
    rewrite (advance_typing p i phrase) by (try assumption; differ_in_length).
    rewrite firstn_length_le by lia.
    rewrite (firstn_snoc phrase k c) by assumption; reflexivity.
  - intros k Hk; apply typing_run; assumption.
  - rewrite (typing_run p i phrase) by (try assumption; lia).
    rewrite firstn_all; reflexivity.
  - unfold useEffect; simpl; rewrite Hi; simpl.
    rewrite str_eqb_refl; reflexivity.
  - apply advance_typed_out; assumption.
Qed.

Lemma typing_phase_completes_witness :
  index (phrases hi_props) (Num 0) = Some (js "hi") /\
  advance_n hi_props 2 (mk (Num 0) [] false false)
  = Ok (mk (Num 0) (js "hi") false false) /\
  advance hi_props (mk (Num 0) (js "hi") false false)
  = Ok (mk (Num 0) (js "hi") false true).
Proof.
  pose proof (typing_phase_completes hi_props (Num 0) (js "hi") eq_refl) as H.
  split; [reflexivity|].
  split; [exact (proj1 (proj2 (proj2 H))) | exact (proj1 (proj2 (proj2 (proj2 (proj2 H)))))].
Defined.

(** C5: with the active phrase [phrase] at position [i], from the deleting
    state with the full phrase: each deleting tick is a timer of
    [deletingSpeed] and removes the last code unit; after [len phrase]
    ticks the text is empty; the effect of that render then, without a
    timer, moves the index to [(i + 1) mod len phrases] and the phase to
    typing. *)
Theorem deleting_phase_completes p (i : nat) phrase :
  nth_error (phrases p) i = Some phrase ->
  let deleting := fun t => mk (Num (Z.of_nat i)) t true false in
  let next := Num (Z.of_nat ((i + 1) mod List.length (phrases p))) in
  (forall t c,
     timer (useEffect p (deleting (t ++ [c]))) = Some (deletingSpeed_of p) /\
     advance p (deleting (t ++ [c])) = Ok (deleting t)) /\
  (forall k, (k <= List.length phrase)%nat ->
     advance_n p k (deleting phrase)
     = Ok (deleting (firstn (List.length phrase - k) phrase))) /\
  advance_n p (List.length phrase) (deleting phrase) = Ok (deleting []) /\
  timer (useEffect p (deleting [])) = None /\
  advance p (deleting []) = Ok (mk next [] false false) /\
  advance_n p (S (List.length phrase)) (deleting phrase)
  = Ok (mk next [] false false) /\
  phase_of (mk next [] false false) = Some Typing.
Proof.
  intros Hi deleting next; unfold deleting, next.
  assert (Hlen : (0 < List.length (phrases p))%nat).
  { assert (i < List.length (phrases p))%nat by (apply nth_error_Some; congruence).
    lia. }
  assert (Hdone : advance p (mk (Num (Z.of_nat i)) [] true false)
                  = Ok (mk (Num (Z.of_nat ((i + 1) mod List.length (phrases p))))
                          [] false false)).
  { rewrite advance_deleted; unfold arr_length.
    rewrite next_index by assumption; reflexivity. }
  assert (Hrun : advance_n p (List.length phrase)
                   (mk (Num (Z.of_nat i)) phrase true false)
                 = Ok (mk (Num (Z.of_nat i)) [] true false)).
  { rewrite deleting_run by lia. rewrite Nat.sub_diag; reflexivity. }
  repeat split.
  - apply timer_deleting; destruct t; discriminate.
  - rewrite advance_deleting by (destruct t; discriminate).
    rewrite removelast_last; reflexivity.
  - intros k Hk; apply deleting_run; assumption.
  - exact Hrun.
  - exact Hdone.
  - rewrite advance_n_snoc, Hrun; exact Hdone.
Qed.

Lemma deleting_phase_completes_witness :
  nth_error (phrases ab_cd_props) 0 = Some (js "ab") /\
  advance_n ab_cd_props 3 (mk (Num 0) (js "ab") true false)
  = Ok (mk (Num 1) [] false false).
Proof.
  split; [reflexivity|].
  exact (proj1 (proj2 (proj2 (proj2 (proj2 (proj2
           (deleting_phase_completes ab_cd_props 0 (js "ab") eq_refl))))))).
Defined.

(** C6: in a paused state the effect arms exactly one timer, of
    [pauseDuration], whose callback clears [isPaused] and sets
    [isDeleting]; the step leaves the text and the phrase index as they
    were and the phase is deleting afterwards. *)
Theorem pause_keeps_text p i t d :
  useEffect p (mk i t d true)
  = SetTimeout [setIsPaused false; setIsDeleting true] (pauseDuration_of p) /\
  advance p (mk i t d true) = Ok (mk i t true false) /\
  phase_of (mk i t true false) = Some Deleting.
Proof. repeat split. Qed.

(** C7: with a single phrase, the cycler types it, pauses, deletes it, and
    is back in the mounted state: the index wraps from 0 to
    [(0 + 1) % 1 = 0] and typing starts again from the empty text. *)
Theorem single_phrase_cycle phrase ts ds pd cn :
  let p := {| phrases := [phrase]; typingSpeed := ts; deletingSpeed := ds;
              pauseDuration := pd; className := cn |} in
  let n := List.length phrase in
  advance_n p n initial = Ok (mk (Num 0) phrase false false) /\
  advance_n p (n + 1) initial = Ok (mk (Num 0) phrase false true) /\
  advance_n p (n + 2) initial = Ok (mk (Num 0) phrase true false) /\
  advance_n p (n + 2 + n) initial = Ok (mk (Num 0) [] true false) /\
  advance_n p (n + 2 + n + 1) initial = Ok initial /\
  rem (add (Num 0) (Num 1)) (Num (arr_length (phrases p))) = Num 0.
Proof.
  intros p n.
  assert (Hi : index (phrases p) (Num 0) = Some phrase) by reflexivity.
  assert (H1 : advance_n p n initial = Ok (mk (Num 0) phrase false false)).
  { unfold initial, n. change (Build_State (Num 0) [] false false)
      with (mk (Num 0) [] false false).
    rewrite (typing_run p (Num 0) phrase) by (try assumption; lia).
    rewrite firstn_all; reflexivity. }
  assert (H2 : advance_n p (n + 2) initial = Ok (mk (Num 0) phrase true false)).
  { rewrite advance_n_add, H1.
    change (bind (advance p (mk (Num 0) phrase false false))
                 (fun s => bind (advance p s) (advance_n p 0))
            = Ok (mk (Num 0) phrase true false)).
    rewrite (advance_typed_out p (Num 0) phrase Hi); reflexivity. }
  assert (H3 : advance_n p (n + 2 + n) initial = Ok (mk (Num 0) [] true false)).
  { rewrite advance_n_add, H2.
    change (advance_n p n (mk (Num 0) phrase true false)
            = Ok (mk (Num 0) [] true false)).
    unfold n; rewrite deleting_run by lia.
    rewrite Nat.sub_diag; reflexivity. }
  repeat split.
  - exact H1.
  - rewrite advance_n_add, H1.
    change (bind (advance p (mk (Num 0) phrase false false)) (advance_n p 0)
            = Ok (mk (Num 0) phrase false true)).
    rewrite (advance_typed_out p (Num 0) phrase Hi); reflexivity.
  - exact H2.
  - exact H3.
  - rewrite advance_n_add, H3. reflexivity.
Qed.

(** The scenario of one phrase ["hi"], step by step. *)
Example hi_scenario :
  map (fun k => advance_n hi_props k initial) (seq 0 7)
  = [Ok (mk (Num 0) [] false false);
     Ok (mk (Num 0) (js "h") false false);
     Ok (mk (Num 0) (js "hi") false false);
     Ok (mk (Num 0) (js "hi") false true);
     Ok (mk (Num 0) (js "hi") true false);
     Ok (mk (Num 0) (js "h") true false);
     Ok (mk (Num 0) [] true false)]
  /\ advance_n hi_props 7 initial = Ok initial
  /\ map (fun k => bind (advance_n hi_props k initial)
                      (fun s => Ok (timer (useEffect hi_props s)))) (seq 0 7)
     = [Ok (Some 10); Ok (Some 10); Ok None; Ok (Some 100);
        Ok (Some 10); Ok (Some 10); Ok None].
Proof. repeat split. Qed.

(** The scenario of two phrases: after the cycle on ["ab"] the index is 1
    and the next typing builds ["c"], ["cd"]. *)
Example ab_cd_scenario :
  advance_n ab_cd_props 7 initial = Ok (mk (Num 1) [] false false) /\
  advance_n ab_cd_props 8 initial = Ok (mk (Num 1) (js "c") false false) /\
  advance_n ab_cd_props 9 initial = Ok (mk (Num 1) (js "cd") false false) /\
  advance_n ab_cd_props 14 initial = Ok initial.
Proof. repeat split. Qed.

(** C10: in every reachable state [isDeleting] and [isPaused] are not both
    set, so the state is in one of the three phases. *)
Theorem flags_never_both_set p s :
  reachable p s ->
  isDeleting s && isPaused s = false /\ exists ph, phase_of s = Some ph.
Proof.
  intros Hr.
  assert (H : isDeleting s && isPaused s = false).
  { induction Hr as [s Hm | s s' Hr IH Hs].
    - inversion Hm; reflexivity.
    - eapply flags_step; eassumption. }
  split; [exact H|].
  unfold phase_of; destruct (isDeleting s), (isPaused s);
    try discriminate; eexists; reflexivity.
Qed.

Lemma flags_never_both_set_witness :
  isDeleting (mk (Num 0) (js "hi") false true)
    && isPaused (mk (Num 0) (js "hi") false true) = false /\
  exists ph, phase_of (mk (Num 0) (js "hi") false true) = Some ph.
Proof.
  apply (flags_never_both_set hi_props).
  apply (reachable_advance_n hi_props 3 initial);
    [apply reach_mount; reflexivity | reflexivity].
Defined.

End PhraseCycler.

(** ** The contact endpoint: validation and the response *)

Module ContactEndpoint.
Import Contact JSFacts.

Section Facts.

Variable is_email : js_string -> bool.
Variable trim : js_string -> js_string.
Variable toLowerCase : js_string -> js_string.
Variable toISOString_now : js_string.
Variable resend_emails_send : Email -> result unit.


Lemma z_string_length lo hi v s :
  z_string is_email [min lo; max hi] v = inl s <->
  v = Some (JString s) /\ lo <= str_length s <= hi.
Proof.
  unfold z_string.
  destruct v as [[| | | t | |]|];
    try (split; [discriminate | intros [E _]; discriminate]).
  simpl. destruct (Z.ltb_spec (str_length t) lo) as [Hlo|Hlo];
    destruct (Z.gtb_spec (str_length t) hi) as [Hhi|Hhi]; simpl.
  - split; [discriminate | intros [E Hb]; inversion E; subst; lia].
  - split; [discriminate | intros [E Hb]; inversion E; subst; lia].
  - split; [discriminate | intros [E Hb]; inversion E; subst; lia].
  - split.
    + intros E; inversion E; subst; split; [reflexivity | lia].
    + intros [E _]; inversion E; reflexivity.
Qed.

Lemma z_string_email v s :
  z_string is_email [email] v = inl s <->
  v = Some (JString s) /\ is_email s = true.
Proof.
  unfold z_string.
  destruct v as [[| | | t | |]|];
    try (split; [discriminate | intros [H _]; discriminate]).
  simpl. destruct (is_email t) eqn:E; simpl.
  - split; [intros H; inversion H; subst; auto
           | intros [H _]; inversion H; reflexivity].
  - split; [discriminate | intros [H Hb]; inversion H; subst; congruence].
Qed.

(** The schema accepts exactly the well-formed submissions. *)
Lemma safeParse_success body :
  (exists data, contactSchema_safeParse is_email body = Success data) <->
  well_formed_submission is_email body.
Proof.
  unfold well_formed_submission, contactSchema_safeParse.
  destruct body as [| | | | | members];
    try (split; [intros [d H]; discriminate
                | intros [n [e [m [H _]]]]; discriminate]).
  destruct (z_string is_email [min 2; max 50] (get (JObject members) (js "name")))
    as [n|issues_n] eqn:En.
  - destruct (z_string is_email [email] (get (JObject members) (js "email")))
      as [e|issues_e] eqn:Ee.
    + destruct (z_string is_email [min 10; max 1000]
                  (get (JObject members) (js "message")))
        as [m|issues_m] eqn:Em.
      * apply z_string_length in En, Em. apply z_string_email in Ee.
        split; [|eexists; reflexivity].
        intros _; exists n, e, m; tauto.
      * split; [intros [d H]; discriminate|].
        intros [n' [e' [m' [_ [_ [_ [_ [Hm Hlen]]]]]]]].
        assert (z_string is_email [min 10; max 1000]
                  (get (JObject members) (js "message")) = inl m')
          by (apply z_string_length; auto).
        congruence.
    + split; [intros [d H]; discriminate|].
      intros [n' [e' [m' [_ [_ [He [Hv _]]]]]]].
      assert (z_string is_email [email]
                (get (JObject members) (js "email")) = inl e')
        by (apply z_string_email; auto).
      congruence.
  - split; [intros [d H]; discriminate|].
    intros [n' [e' [m' [Hn [Hlen _]]]]].
    assert (z_string is_email [min 2; max 50]
              (get (JObject members) (js "name")) = inl n')
      by (apply z_string_length; auto).
    congruence.
Qed.

(** The response to a body the schema accepts, whatever the mail service
    does. *)
Lemma respond_success body data :
  contactSchema_safeParse is_email body = Success data ->
  respond is_email trim toLowerCase toISOString_now
    resend_emails_send {| request_json := Ok body |}
  = Ok {| response_body :=
            {| success := true;
               response_message :=
                 js "Message received successfully! Thank you for reaching out.";
               errors := None |};
          status := 200 |}.
Proof.
  intros H. unfold respond, POST, try_catch, bindM, lift, ret; simpl.
  rewrite H.
  match goal with
  | |- context [resend_emails_send ?m] => destruct (resend_emails_send m)
  end; reflexivity.
Qed.

(** The response to a body the schema rejects. *)
Lemma respond_failure body formErrors fieldErrors :
  contactSchema_safeParse is_email body = Failure formErrors fieldErrors ->
  respond is_email trim toLowerCase toISOString_now
    resend_emails_send {| request_json := Ok body |}
  = Ok {| response_body :=
            {| success := false;
               response_message := js "Validation failed";
               errors := Some fieldErrors |};
          status := 400 |}.
Proof.
  intros H. unfold respond, POST, try_catch, bindM, lift, ret; simpl.
  rewrite H; reflexivity.
Qed.

(** C8: the schema accepts a JSON body exactly when [name] is a string of
    2 to 50 code units, [email] a string the email pattern accepts and
    [message] a string of 10 to 1000 code units; the handler answers such a
    body with status 200, and every other body with status 400 and
    [success = false]. *)
Theorem contact_validation body :
  ((exists data, contactSchema_safeParse is_email body = Success data) <->
   well_formed_submission is_email body) /\
  (well_formed_submission is_email body <->
   exists resp, respond is_email trim toLowerCase toISOString_now
    resend_emails_send {| request_json := Ok body |} = Ok resp /\
                status resp <> 400) /\
  (~ well_formed_submission is_email body ->
   exists resp, respond is_email trim toLowerCase toISOString_now
    resend_emails_send {| request_json := Ok body |} = Ok resp /\
                status resp = 400 /\ success (response_body resp) = false).
Proof.
  pose proof (safeParse_success body) as Hiff.
  split; [exact Hiff|]. split.
  - split.
    + intros Hwf. apply Hiff in Hwf. destruct Hwf as [data Hd].
      eexists; split; [apply (respond_success body data Hd)|].
      simpl; discriminate.
    + intros [resp [Hr Hs]].
      destruct (contactSchema_safeParse is_email body) as [data|fe fi] eqn:E.
      * apply Hiff; exists data; reflexivity.
      * rewrite (respond_failure body fe fi E) in Hr.
        inversion Hr; subst; simpl in Hs; contradiction.
  - intros Hnwf.
    destruct (contactSchema_safeParse is_email body) as [data|fe fi] eqn:E.
    + exfalso; apply Hnwf, Hiff; exists data; reflexivity.
    + eexists; split; [apply (respond_failure body fe fi E)|].
      split; reflexivity.
Qed.

(** C9: for a body that passes validation the handler answers 200 with
    [success = true], whatever [resend.emails.send] does: when it throws,
    the error goes to the console and the response is the same. *)
Theorem email_failure_is_hidden body data :
  contactSchema_safeParse is_email body = Success data ->
  exists resp,
    respond is_email trim toLowerCase toISOString_now
    resend_emails_send {| request_json := Ok body |} = Ok resp /\
    status resp = 200 /\
    success (response_body resp) = true /\
    errors (response_body resp) = None /\
    response_message (response_body resp)
    = js "Message received successfully! Thank you for reaching out." /\
    forall out,
      fst (POST is_email trim toLowerCase toISOString_now resend_emails_send
             {| request_json := Ok body |} out) = Ok resp.
Proof.
  intros H. eexists. split; [apply (respond_success body data H)|].
  repeat split.
  intros out. unfold POST, try_catch, bindM, lift, ret; simpl.
  rewrite H.
  match goal with
  | |- context [resend_emails_send ?m] => destruct (resend_emails_send m)
  end; reflexivity.
Qed.

End Facts.

(** A body without [email] is answered with 400 and the issue of that
    field; a body that is not JSON with 500. *)
Example missing_email_rejected :
  respond contains_at (fun s => s) (fun s => s) [] send_fails
    {| request_json :=
         Ok (JObject [(js "name", JString (js "Tim"));
                      (js "message", JString (js "Hello from the contact form."))]) |}
  = Ok {| response_body :=
            {| success := false;
               response_message := js "Validation failed";
               errors := Some [(js "email", [invalid_type])] |};
          status := 400 |}.
Proof. reflexivity. Qed.

Example not_json_is_500 :
  POST contains_at (fun s => s) (fun s => s) [] send_fails
    {| request_json := Throw SyntaxError |} []
  = (Ok {| response_body :=
             {| success := false;
                response_message :=
                  js "An unexpected error occurred. Please try again later.";
                errors := None |};
           status := 500 |},
     [console_error (js "Contact form error:") SyntaxError]).
Proof. reflexivity. Qed.

Example send_failure_is_logged :
  snd (POST contains_at (fun s => s) (fun s => s) [] send_fails
         {| request_json := Ok sample_body |} [])
  = [console_error (js "Failed to send email:")
       (Error "the mail service is down")].
Proof. reflexivity. Qed.

Lemma email_failure_is_hidden_witness :
  exists resp,
    respond contains_at (fun s => s) (fun s => s) (js "2026-01-01T00:00:00.000Z")
      send_fails {| request_json := Ok sample_body |} = Ok resp /\
    status resp = 200 /\
    success (response_body resp) = true.
Proof.
  destruct (email_failure_is_hidden contains_at (fun s => s) (fun s => s)
              (js "2026-01-01T00:00:00.000Z") send_fails sample_body
              {| name := js "Tim";
                 email_address := js "tim@example.com";
                 message := js "Hello from the contact form." |}
              eq_refl) as [resp [Hr [Hs [Hok _]]]].
  exists resp; auto.
Defined.

End ContactEndpoint.

(** ** The cycler over time: rotation, progress and recovery *)

Module CyclerBehaviour.
Import Cycler CyclerRun JSFacts CyclerFacts.

Lemma firstn_S_snoc {A : Type} (l : list A) (k : nat) (x : A) :
  nth_error l k = Some x -> firstn (S k) l = firstn k l ++ [x].
Proof.
  revert k; induction l as [|y l IH]; intros [|k] H; try discriminate.
  - inversion H; reflexivity.
  - simpl in H. change (y :: firstn (S k) l = y :: (firstn k l ++ [x])).
    f_equal; apply IH; assumption.
Qed.

Lemma steps_of_phrases_snoc (phs : list js_string) (ph : js_string) :
  steps_of_phrases (phs ++ [ph])
  = (steps_of_phrases phs + steps_of_phrase ph)%nat.
Proof.
  unfold steps_of_phrases. rewrite map_app, list_sum_app. simpl. lia.
Qed.

(** One pass over the phrase at position [i]. *)
Lemma pass_phrase p (i : nat) ph :
  nth_error (phrases p) i = Some ph ->
  advance_n p (steps_of_phrase ph) (start_of i)
  = Ok (start_of ((i + 1) mod List.length (phrases p))).
Proof.
  intros Hi.
  assert (Hidx : index (phrases p) (Num (Z.of_nat i)) = Some ph)
    by (rewrite index_nat; exact Hi).
  assert (Hlen : (0 < List.length (phrases p))%nat).
  { assert (i < List.length (phrases p))%nat by (apply nth_error_Some; congruence).
    lia. }
  unfold steps_of_phrase, start_of.
  rewrite !advance_n_add.
  rewrite (typing_run p _ ph) by (try assumption; lia).
  rewrite firstn_all.
  change (bind (bind (bind (advance p (mk (Num (Z.of_nat i)) ph false false))
                        (fun s => bind (advance p s) (advance_n p 0)))
                  (advance_n p (List.length ph)))
            (advance_n p 1)
          = Ok (mk (Num (Z.of_nat ((i + 1) mod List.length (phrases p))))
                  [] false false)).
  rewrite (advance_typed_out p _ ph Hidx).
  change (bind (advance_n p (List.length ph) (mk (Num (Z.of_nat i)) ph true false))
            (advance_n p 1)
          = Ok (mk (Num (Z.of_nat ((i + 1) mod List.length (phrases p))))
                  [] false false)).
  rewrite deleting_run by lia. rewrite Nat.sub_diag.
  change (bind (advance p (mk (Num (Z.of_nat i)) [] true false)) (advance_n p 0)
          = Ok (mk (Num (Z.of_nat ((i + 1) mod List.length (phrases p))))
                  [] false false)).
  rewrite advance_deleted. unfold arr_length.
  rewrite next_index by assumption. reflexivity.
Qed.

(** The passes over the first [j] phrases lead to the start of phrase [j]
    (of the first phrase again when [j] is the number of phrases). *)
Lemma run_to_phrase p (j : nat) :
  (j <= List.length (phrases p))%nat -> phrases p <> [] ->
  advance_n p (steps_of_phrases (firstn j (phrases p))) initial
  = Ok (start_of (j mod List.length (phrases p))).
Proof.
  intros Hj Hne.
  assert (Hlen : (0 < List.length (phrases p))%nat)
    by (destruct (phrases p); [congruence | simpl; lia]).
  induction j as [|j IH].
  - rewrite Nat.Div0.mod_0_l. reflexivity.
  - destruct (nth_error (phrases p) j) as [ph|] eqn:E;
      [|apply nth_error_None in E; lia].
    rewrite (firstn_S_snoc _ _ _ E), steps_of_phrases_snoc, advance_n_add.
    rewrite IH by lia. rewrite Nat.mod_small by lia.
    change (advance_n p (steps_of_phrase ph) (start_of j)
            = Ok (start_of (S j mod List.length (phrases p)))).
    rewrite (pass_phrase p j ph E).
    replace (j + 1)%nat with (S j) by lia; reflexivity.
Qed.

(** X1: every phrase is displayed in full, in list order: the phrase at
    position [j] is complete after the passes over the phrases before it
    and one tick per code unit, and the next step pauses on it. *)
Theorem every_phrase_is_displayed p (j : nat) ph :
  nth_error (phrases p) j = Some ph ->
  let before := steps_of_phrases (firstn j (phrases p)) in
  advance_n p (before + List.length ph) initial
  = Ok (mk (Num (Z.of_nat j)) ph false false) /\
  advance_n p (before + List.length ph + 1) initial
  = Ok (mk (Num (Z.of_nat j)) ph false true) /\
  forall k, (k <= List.length ph)%nat ->
    advance_n p (before + k) initial
    = Ok (mk (Num (Z.of_nat j)) (firstn k ph) false false).
Proof.
  intros Hj before.
  assert (Hlt : (j < List.length (phrases p))%nat)
    by (apply nth_error_Some; congruence).
  assert (Hne : phrases p <> []) by (destruct (phrases p); [destruct j|]; discriminate).
  assert (Hidx : index (phrases p) (Num (Z.of_nat j)) = Some ph)
    by (rewrite index_nat; exact Hj).
  assert (Hk : forall k, (k <= List.length ph)%nat ->
            advance_n p (before + k) initial
            = Ok (mk (Num (Z.of_nat j)) (firstn k ph) false false)).
  { intros k Hk. unfold before.
    rewrite advance_n_add, run_to_phrase by (try assumption; lia).
    rewrite Nat.mod_small by lia.
    apply (typing_run p (Num (Z.of_nat j)) ph k Hidx Hk). }
  split; [|split].
  - rewrite Hk by lia. rewrite firstn_all; reflexivity.
  - rewrite advance_n_add, Hk by lia. rewrite firstn_all.
    change (bind (advance p (mk (Num (Z.of_nat j)) ph false false)) (advance_n p 0)
            = Ok (mk (Num (Z.of_nat j)) ph false true)).
    rewrite (advance_typed_out p _ ph Hidx); reflexivity.
  - exact Hk.
Qed.

Lemma every_phrase_is_displayed_witness :
  nth_error (phrases hero_props) 2 = Some (js "film photography") /\
  advance_n hero_props (94 + 16) initial
  = Ok (mk (Num 2) (js "film photography") false false).
Proof.
  split; [reflexivity|].
  exact (proj1 (every_phrase_is_displayed hero_props 2
                  (js "film photography") eq_refl)).
Defined.

(** X2: the cycle repeats forever: after the steps of all phrases the
    cycler is in its mounted state again, and so after any number of
    rounds. *)
Theorem rotation_is_periodic p (rounds : nat) :
  phrases p <> [] ->
  advance_n p (rounds * steps_of_phrases (phrases p)) initial = Ok initial.
Proof.
  intros Hne.
  assert (Hone : advance_n p (steps_of_phrases (phrases p)) initial = Ok initial).
  { pose proof (run_to_phrase p (List.length (phrases p)) (Nat.le_refl _) Hne) as H.
    rewrite firstn_all in H. rewrite H.
    rewrite Nat.Div0.mod_same. reflexivity. }
  induction rounds as [|r IH]; [reflexivity|].
  change (S r * steps_of_phrases (phrases p))%nat
    with (steps_of_phrases (phrases p) + r * steps_of_phrases (phrases p))%nat.
  rewrite advance_n_add, Hone. exact IH.
Qed.

Lemma rotation_is_periodic_witness :
  phrases hero_props <> [] /\
  steps_of_phrases (phrases hero_props) = 221%nat /\
  advance_n hero_props (3 * steps_of_phrases (phrases hero_props)) initial
  = Ok initial.
Proof.
  split; [discriminate|]. split; [reflexivity|].
  apply (rotation_is_periodic hero_props 3); discriminate.
Defined.

(** The shape of a step from a state whose text is a prefix of the active
    phrase [ph]. *)
Lemma step_shape p i t d pz ph :
  index (phrases p) i = Some ph -> is_prefix t ph = true ->
  (pz = true /\ advance p (mk i t d pz) = Ok (mk i t true false)) \/
  (pz = false /\ d = false /\ t = ph /\
   advance p (mk i t d pz) = Ok (mk i t false true)) \/
  (pz = false /\ d = false /\
   exists c, nth_error ph (List.length t) = Some c /\
             advance p (mk i t d pz) = Ok (mk i (t ++ [c]) false false)) \/
  (pz = false /\ d = true /\ t = [] /\
   advance p (mk i t d pz)
   = Ok (mk (rem (add i (Num 1)) (Num (arr_length (phrases p)))) [] false false)) \/
  (pz = false /\ d = true /\
   exists t' c, t = t' ++ [c] /\
                advance p (mk i t d pz) = Ok (mk i t' true false)).
Proof.
  intros Hi Hpre. destruct pz.
  - left; split; [reflexivity | apply advance_paused].
  - right. destruct d.
    + right; right. destruct t as [|x t0].
      * left; split; [reflexivity|]. split; [reflexivity|].
        split; [reflexivity | apply advance_deleted].
      * right; split; [reflexivity|]. split; [reflexivity|].
        destruct (@exists_last _ (x :: t0)) as [t' [c E]]; [discriminate|].
        exists t', c; split; [exact E|].
        rewrite advance_deleting by discriminate.
        rewrite E, removelast_last; reflexivity.
    + destruct (list_eq_dec N.eq_dec t ph) as [->|Hne].
      * left; split; [reflexivity|]. split; [reflexivity|].
        split; [reflexivity | apply advance_typed_out; assumption].
      * right; left; split; [reflexivity|]. split; [reflexivity|].
        apply is_prefix_app in Hpre. destruct Hpre as [rest ->].
        destruct rest as [|c rest]; [rewrite app_nil_r in Hne; congruence|].
        exists c. split.
        -- rewrite nth_error_app2 by lia. rewrite Nat.sub_diag; reflexivity.
        -- rewrite (advance_typing p i (t ++ c :: rest)) by assumption.
           replace (S (List.length t)) with (List.length (t ++ [c]))
             by (rewrite length_app; simpl; lia).
           replace (t ++ c :: rest) with ((t ++ [c]) ++ rest)
             by (rewrite <- app_assoc; reflexivity).
           rewrite firstn_app, firstn_all, Nat.sub_diag. simpl.
           rewrite app_nil_r; reflexivity.
Qed.

Lemma snoc_neq {A : Type} (l : list A) (x : A) : l ++ [x] <> l.
Proof.
  intros E; apply (f_equal (@List.length _)) in E.
  rewrite length_app in E; simpl in E; lia.
Qed.

(** X3: the animation never stalls: with a non-empty phrase list, the step
    from a reachable state gives a state that differs from it, so the
    effect runs again. *)
Theorem step_changes_state p s :
  phrases p <> [] -> reachable p s ->
  exists s', advance p s = Ok s' /\ s' <> s.
Proof.
  intros Hne Hr.
  pose proof (reachable_displays_prefix p s Hne Hr) as Hpre.
  unfold displays_prefix in Hpre. destruct s as [i t d pz]; simpl in Hpre.
  change (Build_State i t d pz) with (mk i t d pz).
  destruct (index (phrases p) i) as [ph|] eqn:Hi; [|contradiction].
  destruct (step_shape p i t d pz ph Hi Hpre)
    as [[-> H] | [[-> [-> [-> H]]] | [[-> [-> [c [_ H]]]]
       | [[-> [-> [-> H]]] | [-> [-> [t' [c [-> H]]]]]]]]];
    eexists; (split; [exact H|]); unfold mk; intros E; inversion E.
  - eapply snoc_neq; eassumption.
  - eapply snoc_neq; symmetry; eassumption.
Qed.

Lemma step_changes_state_witness :
  exists s', advance hi_props (mk (Num 0) (js "hi") false true) = Ok s' /\
             s' <> mk (Num 0) (js "hi") false true.
Proof.
  apply (step_changes_state hi_props); [discriminate|].
  apply (reachable_advance_n hi_props 3 initial);
    [apply reach_mount; reflexivity | reflexivity].
Defined.

(** X4: the text moves by one code unit at a time: with a non-empty
    phrase list, a step from a reachable state leaves the text as it is,
    appends one code unit, or removes the last one. *)
Theorem text_moves_by_one_unit p s s' :
  phrases p <> [] -> reachable p s -> advance p s = Ok s' ->
  currentText s' = currentText s \/
  (exists c, currentText s' = currentText s ++ [c]) \/
  (exists c, currentText s = currentText s' ++ [c]).
Proof.
  intros Hne Hr Hs.
  pose proof (reachable_displays_prefix p s Hne Hr) as Hpre.
  unfold displays_prefix in Hpre. destruct s as [i t d pz]; simpl in Hpre.
  change (Build_State i t d pz) with (mk i t d pz) in Hs.
  destruct (index (phrases p) i) as [ph|] eqn:Hi; [|contradiction].
  simpl currentText.
  destruct (step_shape p i t d pz ph Hi Hpre)
    as [[-> H] | [[-> [-> [-> H]]] | [[-> [-> [c [_ H]]]]
       | [[-> [-> [-> H]]] | [-> [-> [t' [c [-> H]]]]]]]]];
    rewrite H in Hs; inversion Hs; subst; simpl.
  - left; reflexivity.
  - left; reflexivity.
  - right; left; exists c; reflexivity.
  - left; reflexivity.
  - right; right; exists c; reflexivity.
Qed.

Lemma text_moves_by_one_unit_witness :
  currentText (mk (Num 0) (js "h") false false) = currentText initial \/
  (exists c, currentText (mk (Num 0) (js "h") false false)
             = currentText initial ++ [c]) \/
  (exists c, currentText initial
             = currentText (mk (Num 0) (js "h") false false) ++ [c]).
Proof.
  apply (text_moves_by_one_unit hi_props initial);
    [discriminate | apply reach_mount; reflexivity | reflexivity].
Defined.

(** X5: the cycler pauses only on a complete phrase: in every reachable
    paused state the text is the active phrase. *)
Theorem paused_on_full_phrase p s :
  reachable p s -> isPaused s = true ->
  index (phrases p) (currentPhraseIndex s) = Some (currentText s).
Proof.
  intros Hr; destruct Hr as [s Hm | s s' Hr Hs].
  - inversion Hm; subst; discriminate.
  - clear Hr. destruct s as [i t d pz].
    unfold advance, useEffect in Hs; simpl in Hs.
    destruct pz; simpl in Hs; [inversion Hs; subst; discriminate|].
    destruct d; simpl in Hs.
    + destruct (str_eqb t []); simpl in Hs; inversion Hs; subst; discriminate.
    + destruct (index (phrases p) i) as [ph|] eqn:Hi; simpl in Hs.
      * destruct (str_eqb t ph) eqn:E; simpl in Hs;
          inversion Hs; subst; simpl; [|discriminate].
        intros _. apply str_eqb_eq in E; subst; exact Hi.
      * discriminate.
Qed.

Lemma paused_on_full_phrase_witness :
  index (phrases hi_props)
    (currentPhraseIndex (mk (Num 0) (js "hi") false true))
  = Some (currentText (mk (Num 0) (js "hi") false true)).
Proof.
  apply (paused_on_full_phrase hi_props);
    [|reflexivity].
  apply (reachable_advance_n hi_props 3 initial);
    [apply reach_mount; reflexivity | reflexivity].
Defined.

(** X6: no render loop: an effect run that calls its setters at once
    never throws, and after at most two such runs in a row the effect arms
    the pause timer; this holds in every state and for every props. *)
Theorem no_render_loop p s :
  timer (useEffect p s) = None ->
  exists s1,
    advance p s = Ok s1 /\
    (timer (useEffect p s1) = None ->
     exists s2, advance p s1 = Ok s2 /\
                timer (useEffect p s2) = Some (pauseDuration_of p)).
Proof.
  destruct s as [i t d pz]. unfold advance, useEffect; simpl.
  destruct pz; simpl; [discriminate|].
  destruct (negb d && strict_eq t (index (phrases p) i)) eqn:E1; simpl.
  - intros _. eexists; split; [reflexivity|]. simpl. discriminate.
  - destruct (d && str_eqb t []) eqn:E2; simpl; [|discriminate].
    intros _. eexists; split; [reflexivity|]. simpl.
    destruct (strict_eq t
                (index (phrases p)
                   (rem (add i (Num 1)) (Num (arr_length (phrases p))))));
      simpl; [|discriminate].
    intros _. eexists; split; reflexivity.
Qed.

Lemma no_render_loop_witness :
  exists s1,
    advance a_empty_props (mk (Num 0) [] true false) = Ok s1 /\
    (timer (useEffect a_empty_props s1) = None ->
     exists s2, advance a_empty_props s1 = Ok s2 /\
                timer (useEffect a_empty_props s2) = Some 2000).
Proof.
  exact (no_render_loop a_empty_props (mk (Num 0) [] true false) eq_refl).
Defined.

(** X7: the text recovers: from any state whose index has a phrase,
    whatever its text (the phrases may have been replaced under it), the
    text is a prefix of the active phrase again after at most
    [len text + 1] steps, the index being the same. *)
Theorem text_recovers p s ph :
  index (phrases p) (currentPhraseIndex s) = Some ph ->
  exists (n : nat) s',
    (n <= List.length (currentText s) + 1)%nat /\
    advance_n p n s = Ok s' /\
    currentPhraseIndex s' = currentPhraseIndex s /\
    displays_prefix p s'.
Proof.
  destruct s as [i t d pz]; simpl. intros Hi.
  change (Build_State i t d pz) with (mk i t d pz).
  assert (Hdel : advance_n p (List.length t) (mk i t true false)
                 = Ok (mk i [] true false)).
  { rewrite deleting_run by lia. rewrite Nat.sub_diag; reflexivity. }
  assert (Hnil : displays_prefix p (mk i [] true false))
    by (unfold displays_prefix; simpl; rewrite Hi; reflexivity).
  destruct pz.
  - exists (1 + List.length t)%nat, (mk i [] true false).
    split; [lia|]. split; [|split; [reflexivity | exact Hnil]].
    rewrite advance_n_add.
    change (bind (bind (advance p (mk i t d true)) (advance_n p 0))
              (advance_n p (List.length t)) = Ok (mk i [] true false)).
    rewrite advance_paused. exact Hdel.
  - destruct d.
    + exists (List.length t), (mk i [] true false).
      split; [lia|]. split; [exact Hdel | split; [reflexivity | exact Hnil]].
    + destruct (list_eq_dec N.eq_dec t ph) as [->|Hne].
      * exists 0%nat, (mk i ph false false).
        split; [lia|]. split; [reflexivity|]. split; [reflexivity|].
        unfold displays_prefix; simpl; rewrite Hi; apply is_prefix_refl.
      * exists 1%nat, (mk i (firstn (S (List.length t)) ph) false false).
        split; [lia|]. split; [|split; [reflexivity|]].
        -- change (bind (advance p (mk i t false false)) (advance_n p 0)
                   = Ok (mk i (firstn (S (List.length t)) ph) false false)).
           rewrite (advance_typing p i ph t Hi Hne); reflexivity.
        -- unfold displays_prefix, mk; cbn [currentPhraseIndex currentText].
           rewrite Hi; apply is_prefix_firstn.
Qed.

Lemma text_recovers_witness :
  exists (n : nat) s',
    (n <= 3 + 1)%nat /\
    advance_n ab_cd_props n (mk (Num 1) (js "xyz") false false) = Ok s' /\
    currentPhraseIndex s' = Num 1 /\
    displays_prefix ab_cd_props s'.
Proof.
  exact (text_recovers ab_cd_props (mk (Num 1) (js "xyz") false false)
           (js "cd") eq_refl).
Defined.



Lemma timer_typed_out p i ph :
  index (phrases p) i = Some ph ->
  timer (useEffect p (mk i ph false false)) = None.
Proof.
  intros Hi; unfold useEffect; simpl.
  rewrite Hi; simpl; rewrite str_eqb_refl; reflexivity.
Qed.

Lemma delays_add p (a b : nat) s :
  delays p (a + b) s
  = bind (advance_n p a s) (fun s' =>
    bind (delays p a s) (fun d1 =>
    bind (delays p b s') (fun d2 => Ok (d1 + d2)))).
Proof.
  revert s; induction a as [|a IH]; intros s.
  - simpl. destruct (delays p b s); reflexivity.
  - change (delays p (S a + b) s)
      with (bind (advance p s) (fun s' =>
            bind (delays p (a + b) s') (fun d =>
            Ok (delay_of (useEffect p s) + d)))).
    change (advance_n p (S a) s) with (bind (advance p s) (advance_n p a)).
    change (delays p (S a) s)
      with (bind (advance p s) (fun s' =>
            bind (delays p a s') (fun d =>
            Ok (delay_of (useEffect p s) + d)))).
    destruct (advance p s) as [s1|e]; [|reflexivity].
    cbn [bind]. rewrite IH.
    destruct (advance_n p a s1) as [s2|e]; cbn [bind].
    + destruct (delays p a s1) as [d1|e]; cbn [bind]; [|reflexivity].
      destruct (delays p b s2) as [d2|e]; cbn [bind]; [|reflexivity].
      f_equal; lia.
    + destruct (delays p a s1); reflexivity.
Qed.

Lemma delays_typing p i ph (k : nat) :
  index (phrases p) i = Some ph -> (k <= List.length ph)%nat ->
  delays p k (mk i [] false false) = Ok (Z.of_nat k * typingSpeed_of p).
Proof.
  intros Hi; induction k as [|k IH]; intros Hk; [reflexivity|].
  replace (S k) with (k + 1)%nat by lia.
  rewrite delays_add, (typing_run p i ph) by (try assumption; lia).
  rewrite IH by lia. cbn [bind delays].
  rewrite (advance_typing p i ph) by (try assumption; differ_in_length).
  cbn [bind]. unfold delay_of.
  rewrite (PhraseCycler.timer_typing p i ph) by (try assumption; differ_in_length).
  f_equal; lia.
Qed.

Lemma delays_deleting p i ph (k : nat) :
  (k <= List.length ph)%nat ->
  delays p k (mk i ph true false) = Ok (Z.of_nat k * deletingSpeed_of p).
Proof.
  induction k as [|k IH]; intros Hk; [reflexivity|].
  replace (S k) with (k + 1)%nat by lia.
  rewrite delays_add, deleting_run by lia.
  rewrite IH by lia. cbn [bind delays].
  rewrite advance_deleting by differ_in_length.
  cbn [bind]. unfold delay_of.
  rewrite PhraseCycler.timer_deleting by differ_in_length.
  f_equal; lia.
Qed.

(** The delays of one pass over the phrase at position [i]. *)
Lemma delays_pass p (i : nat) ph :
  nth_error (phrases p) i = Some ph ->
  delays p (steps_of_phrase ph) (start_of i) = Ok (delay_of_phrase p ph).
Proof.
  intros Hi.
  assert (Hidx : index (phrases p) (Num (Z.of_nat i)) = Some ph)
    by (rewrite index_nat; exact Hi).
  unfold steps_of_phrase, start_of.
  replace (List.length ph + 2 + List.length ph + 1)%nat
    with (List.length ph + (2 + (List.length ph + 1)))%nat by lia.
  rewrite delays_add.
  rewrite (typing_run p _ ph), (delays_typing p _ ph) by (try assumption; lia).
  rewrite firstn_all. cbn [bind].
  rewrite delays_add.
  assert (H2 : advance_n p 2 (mk (Num (Z.of_nat i)) ph false false)
               = Ok (mk (Num (Z.of_nat i)) ph true false)).
  { change (bind (advance p (mk (Num (Z.of_nat i)) ph false false))
              (fun s => bind (advance p s) (advance_n p 0))
            = Ok (mk (Num (Z.of_nat i)) ph true false)).
    rewrite (advance_typed_out p _ ph Hidx); reflexivity. }
  assert (D2 : delays p 2 (mk (Num (Z.of_nat i)) ph false false)
               = Ok (pauseDuration_of p)).
  { cbn [delays]. rewrite (advance_typed_out p _ ph Hidx). cbn [bind].
    rewrite advance_paused. cbn [bind]. unfold delay_of.
    rewrite (timer_typed_out p _ ph Hidx).
    change (timer (useEffect p (mk (Num (Z.of_nat i)) ph false true)))
      with (Some (pauseDuration_of p)).
    cbv iota. f_equal; lia. }
  rewrite H2, D2. cbn [bind].
  rewrite delays_add, deleting_run, delays_deleting by lia.
  rewrite Nat.sub_diag. cbn [bind firstn delays].
  rewrite advance_deleted. cbn [bind]. unfold delay_of_phrase, str_length.
  f_equal. unfold delay_of; simpl. lia.
Qed.

Lemma delay_of_phrases_snoc p (phs : list js_string) (ph : js_string) :
  delay_of_phrases p (phs ++ [ph])
  = delay_of_phrases p phs + delay_of_phrase p ph.
Proof.
  induction phs as [|x phs IH]; simpl; [lia | rewrite IH; lia].
Qed.

Lemma delays_to_phrase p (j : nat) :
  (j <= List.length (phrases p))%nat -> phrases p <> [] ->
  delays p (steps_of_phrases (firstn j (phrases p))) initial
  = Ok (delay_of_phrases p (firstn j (phrases p))).
Proof.
  intros Hj Hne. induction j as [|j IH]; [reflexivity|].
  destruct (nth_error (phrases p) j) as [ph|] eqn:E;
    [|apply nth_error_None in E; lia].
  rewrite (firstn_S_snoc _ _ _ E), steps_of_phrases_snoc, delays_add.
  rewrite run_to_phrase, IH by (try assumption; lia).
  rewrite Nat.mod_small by lia. cbn [bind].
  rewrite (delays_pass p j ph E). cbn [bind].
  rewrite delay_of_phrases_snoc; reflexivity.
Qed.

(** X9: the delays of one round: the timers armed while the cycler goes
    once through all phrases add up to, for each phrase, its length times
    the typing interval, the pause, and its length times the deleting
    interval; the steps between them wait for no timer. *)
Theorem delays_of_a_round p :
  phrases p <> [] ->
  delays p (steps_of_phrases (phrases p)) initial
  = Ok (delay_of_phrases p (phrases p)).
Proof.
  intros Hne.
  pose proof (delays_to_phrase p (List.length (phrases p)) (Nat.le_refl _) Hne)
    as H.
  rewrite firstn_all in H; exact H.
Qed.

Lemma delays_of_a_round_witness :
  phrases hero_props <> [] /\
  delays hero_props (steps_of_phrases (phrases hero_props)) initial
  = Ok 19860.
Proof.
  split; [discriminate|].
  apply (delays_of_a_round hero_props); discriminate.
Defined.

End CyclerBehaviour.

(** ** The contact route: responses, errors, the mail and the console *)

Module ContactRoute.
Import Contact ContactMail JSFacts.

Lemma field_errors_In k issues k1 r1 k2 r2 k3 r3 :
  In (k, issues) (field_errors [(k1, r1); (k2, r2); (k3, r3)]) <->
  (k = k1 /\ r1 = inr issues) \/ (k = k2 /\ r2 = inr issues) \/
  (k = k3 /\ r3 = inr issues).
Proof.
  unfold field_errors; simpl.
  destruct r1 as [s1|i1], r2 as [s2|i2], r3 as [s3|i3]; simpl;
    (split;
     [ intros H;
       repeat match goal with
              | H : _ \/ _ |- _ => destruct H
              | H : (_, _) = (_, _) |- _ => inversion H; subst; clear H
              | H : False |- _ => contradiction
              end; auto
     | intros [[-> H] | [[-> H] | [-> H]]];
       try discriminate; inversion H; subst; auto ]).
Qed.

Lemma trimStart_length (s : js_string) :
  (List.length (JSString.trimStart s) <= List.length s)%nat.
Proof.
  induction s as [|c s IH]; simpl; [lia|].
  destruct (JSString.is_whitespace c); simpl; lia.
Qed.

Lemma trim_length (s : js_string) :
  (List.length (JSString.trim s) <= List.length s)%nat.
Proof.
  unfold JSString.trim, JSString.trimEnd. rewrite length_rev.
  pose proof (trimStart_length (rev (JSString.trimStart s))) as H1.
  rewrite length_rev in H1.
  pose proof (trimStart_length s). lia.
Qed.

Lemma trimStart_blank (s : js_string) :
  forallb JSString.is_whitespace s = true -> JSString.trimStart s = [].
Proof.
  induction s as [|c s IH]; simpl; [reflexivity|].
  destruct (JSString.is_whitespace c); simpl; [exact IH | discriminate].
Qed.

Lemma trim_blank (s : js_string) :
  forallb JSString.is_whitespace s = true -> JSString.trim s = [].
Proof.
  intros H. unfold JSString.trim. rewrite (trimStart_blank s H). reflexivity.
Qed.

Lemma strip_length (s : js_string) :
  (List.length (strip_angle_brackets s) <= List.length s)%nat.
Proof. unfold strip_angle_brackets. apply filter_length_le. Qed.

Section RouteFacts.

Variable is_email : js_string -> bool.
Variable trim : js_string -> js_string.
Variable toLowerCase : js_string -> js_string.
Variable toISOString_now : js_string.
Variable resend_emails_send : Email -> result unit.

(** What an accepted body's data is. *)
Lemma safeParse_Success_inv body data :
  contactSchema_safeParse is_email body = Success data ->
  get body (js "name") = Some (JString (name data)) /\
  2 <= str_length (name data) <= 50 /\
  get body (js "email") = Some (JString (email_address data)) /\
  is_email (email_address data) = true /\
  get body (js "message") = Some (JString (message data)) /\
  10 <= str_length (message data) <= 1000.
Proof.
  clear trim toLowerCase toISOString_now resend_emails_send.
  unfold contactSchema_safeParse.
  destruct body as [| | | | | members]; try discriminate.
  destruct (z_string is_email [min 2; max 50] (get (JObject members) (js "name")))
    as [n|?] eqn:En; [|discriminate].
  destruct (z_string is_email [email] (get (JObject members) (js "email")))
    as [e|?] eqn:Ee; [|discriminate].
  destruct (z_string is_email [min 10; max 1000]
              (get (JObject members) (js "message")))
    as [m|?] eqn:Em; [|discriminate].
  intros H; inversion H; subst; simpl.
  apply ContactEndpoint.z_string_length in En, Em.
  apply ContactEndpoint.z_string_email in Ee. tauto.
Qed.

(** The handler on an accepted body: the response, and the console lines
    that depend on what sending the mail did. *)
Lemma POST_accepted body data out :
  contactSchema_safeParse is_email body = Success data ->
  POST is_email trim toLowerCase toISOString_now resend_emails_send
    {| request_json := Ok body |} out
  = (Ok ok_response,
     out ++ console_for trim toLowerCase toISOString_now data
              (resend_emails_send (contact_email trim toLowerCase data))).
Proof.
  intros H. unfold POST, try_catch, bindM, lift, ret, print; simpl.
  rewrite H.
  change (resend_emails_send _)
    with (resend_emails_send (contact_email trim toLowerCase data)).
  destruct (resend_emails_send (contact_email trim toLowerCase data));
    unfold console_for; simpl; rewrite <- ?app_assoc; reflexivity.
Qed.

Lemma POST_rejected body fe fi out :
  contactSchema_safeParse is_email body = Failure fe fi ->
  POST is_email trim toLowerCase toISOString_now resend_emails_send
    {| request_json := Ok body |} out
  = (Ok {| response_body :=
             {| success := false;
                response_message := js "Validation failed";
                errors := Some fi |};
           status := 400 |}, out).
Proof.
  intros H. unfold POST, try_catch, bindM, lift, ret; simpl.
  rewrite H; reflexivity.
Qed.

(** X10: the handler always answers: for every request, console and mail
    service it returns a response and only adds to the console; the
    status is 200, 400 or 500; [success] is set exactly with 200; the
    status is 500 exactly when [request.json()] throws and 400 exactly
    when the schema rejects the body. *)
Theorem post_always_answers request out :
  exists resp added,
    POST is_email trim toLowerCase toISOString_now resend_emails_send
      request out = (Ok resp, out ++ added) /\
    (status resp = 200 \/ status resp = 400 \/ status resp = 500) /\
    (success (response_body resp) = true <-> status resp = 200) /\
    (status resp = 500 <-> exists e, request_json request = Throw e) /\
    (status resp = 400 <->
     exists body fe fi,
       request_json request = Ok body /\
       contactSchema_safeParse is_email body = Failure fe fi).
Proof.
  destruct request as [[body|e]].
  - destruct (contactSchema_safeParse is_email body) as [data|fe fi] eqn:E.
    + eexists; eexists; split; [apply (POST_accepted body data out E)|].
      simpl. split; [auto|]. split; [split; reflexivity|].
      split; (split; [discriminate|]).
      * intros [e H]; discriminate.
      * intros [b [fe [fi [H1 H2]]]]. inversion H1; subst; congruence.
    + exists {| response_body :=
                  {| success := false;
                     response_message := js "Validation failed";
                     errors := Some fi |};
                status := 400 |}, [].
      rewrite app_nil_r. split; [apply (POST_rejected body fe fi out E)|].
      simpl. split; [auto|]. split; [split; discriminate|].
      split.
      * split; [discriminate | intros [e H]; discriminate].
      * split; [|reflexivity]. intros _. exists body, fe, fi; auto.
  - eexists; eexists; split; [reflexivity|]. simpl.
    split; [auto|]. split; [split; discriminate|]. split.
    + split; [|reflexivity]. intros _; exists e; reflexivity.
    + split; [discriminate|]. intros [b [fe [fi [H _]]]]; discriminate.
Qed.

Lemma z_string_issues_length lo hi v issues :
  lo <= hi ->
  z_string is_email [min lo; max hi] v = inr issues ->
  (issues = [invalid_type] /\ forall s, v <> Some (JString s)) \/
  (issues = [too_small] /\ exists s, v = Some (JString s) /\ str_length s < lo) \/
  (issues = [too_big] /\ exists s, v = Some (JString s) /\ hi < str_length s).
Proof.
  clear trim toLowerCase toISOString_now resend_emails_send.
  intros Hle. unfold z_string.
  destruct v as [[| | | t | |]|];
    try (intros H; inversion H; subst; left; split;
         [reflexivity | intros s; discriminate]).
  simpl. destruct (Z.ltb_spec (str_length t) lo) as [Hlo|Hlo];
    destruct (Z.gtb_spec (str_length t) hi) as [Hhi|Hhi]; simpl;
    intros H; inversion H; subst.
  - lia.
  - right; left; split; [reflexivity | exists t; auto].
  - right; right; split; [reflexivity | exists t; auto].
Qed.

Lemma z_string_issues_email v issues :
  z_string is_email [email] v = inr issues ->
  (issues = [invalid_type] /\ forall s, v <> Some (JString s)) \/
  (issues = [invalid_string] /\
   exists s, v = Some (JString s) /\ is_email s = false).
Proof.
  unfold z_string.
  destruct v as [[| | | t | |]|];
    try (intros H; inversion H; subst; left; split;
         [reflexivity | intros s; discriminate]).
  simpl. destruct (is_email t) eqn:E; simpl; intros H; inversion H; subst.
  right; split; [reflexivity | exists t; auto].
Qed.

(** A field has an entry in [fieldErrors] exactly when its check fails. *)
Lemma z_string_inr_iff checks v :
  (exists issues, z_string is_email checks v = inr issues) <->
  ~ (exists s, z_string is_email checks v = inl s).
Proof.
  destruct (z_string is_email checks v) as [s|issues].
  - split; [intros [i H]; discriminate | intros H; exfalso; apply H; eauto].
  - split; [intros _ [s H]; discriminate | intros _; eauto].
Qed.

Lemma safeParse_Failure_object members fe fi :
  contactSchema_safeParse is_email (JObject members) = Failure fe fi ->
  fe = [] /\
  fi = field_errors
         [(js "name",
           z_string is_email [min 2; max 50] (get (JObject members) (js "name")));
          (js "email",
           z_string is_email [email] (get (JObject members) (js "email")));
          (js "message",
           z_string is_email [min 10; max 1000]
             (get (JObject members) (js "message")))] /\
  fi <> [].
Proof.
  unfold contactSchema_safeParse.
  destruct (z_string is_email [min 2; max 50] (get (JObject members) (js "name")))
    as [n|i1];
  destruct (z_string is_email [email] (get (JObject members) (js "email")))
    as [e|i2];
  destruct (z_string is_email [min 10; max 1000]
              (get (JObject members) (js "message")))
    as [m|i3];
  intros H; inversion H; subst; (split; [reflexivity|]);
    (split; [reflexivity|]); unfold field_errors; simpl; discriminate.
Qed.

(** X11: which fields a 400 names: the response to a rejected body carries
    the schema's [fieldErrors] and never its form errors, so for a body
    that is not an object [errors] is empty; for an object it is not
    empty, and it has an entry for [name], [email] or [message] exactly
    when that field is not a string within its bounds. *)
Theorem rejected_fields body fe fi :
  contactSchema_safeParse is_email body = Failure fe fi ->
  respond is_email trim toLowerCase toISOString_now resend_emails_send
    {| request_json := Ok body |}
  = Ok {| response_body :=
            {| success := false;
               response_message := js "Validation failed";
               errors := Some fi |};
          status := 400 |} /\
  (fi = [] <-> forall members, body <> JObject members) /\
  ((exists issues, In (js "name", issues) fi) <->
   (exists members, body = JObject members) /\ ~ name_ok body) /\
  ((exists issues, In (js "email", issues) fi) <->
   (exists members, body = JObject members) /\ ~ email_ok is_email body) /\
  ((exists issues, In (js "message", issues) fi) <->
   (exists members, body = JObject members) /\ ~ message_ok body) /\
  (forall k issues, In (k, issues) fi ->
     issues <> [] /\ (k = js "name" \/ k = js "email" \/ k = js "message")).
Proof.
  intros H. split.
  { unfold respond. rewrite (POST_rejected body fe fi [] H). reflexivity. }
  assert (Hother : (forall members, body <> JObject members) -> fi = []).
  { intros Hn. unfold contactSchema_safeParse in H.
    destruct body; try (inversion H; reflexivity).
    exfalso; eapply Hn; reflexivity. }
  destruct body as [|b|m e|s|items|members];
    try (rewrite Hother by (intros ms; discriminate);
         split; [split; [intros _ ms; discriminate | reflexivity]|];
         split; [split; [intros [i []] | intros [[ms E] _]; discriminate]|];
         split; [split; [intros [i []] | intros [[ms E] _]; discriminate]|];
         split; [split; [intros [i []] | intros [[ms E] _]; discriminate]|];
         intros k i []).
  clear Hother.
  destruct (safeParse_Failure_object members fe fi H) as [-> [Hfi Hne]].
  split; [split; [intros E; contradiction
                 | intros Hn; exfalso; apply (Hn members); reflexivity]|].
  assert (Hin : forall k issues, In (k, issues) fi <->
     (k = js "name" /\
      z_string is_email [min 2; max 50] (get (JObject members) (js "name"))
      = inr issues) \/
     (k = js "email" /\
      z_string is_email [email] (get (JObject members) (js "email"))
      = inr issues) \/
     (k = js "message" /\
      z_string is_email [min 10; max 1000]
        (get (JObject members) (js "message")) = inr issues)).
  { intros k issues. rewrite Hfi. apply field_errors_In. }
  split; [|split; [|split]].
  - split.
    + intros [issues Hi]. split; [eexists; reflexivity|].
      apply Hin in Hi. destruct Hi as [[_ E] | [[E _] | [E _]]];
        try discriminate.
      intros [s [Hg Hb]].
      assert (z_string is_email [min 2; max 50]
                (get (JObject members) (js "name")) = inl s)
        by (apply ContactEndpoint.z_string_length; auto).
      congruence.
    + intros [_ Hn].
      destruct (z_string is_email [min 2; max 50]
                  (get (JObject members) (js "name"))) as [s|issues] eqn:E.
      * exfalso; apply Hn. apply ContactEndpoint.z_string_length in E.
        exists s; exact E.
      * exists issues. apply Hin. left; auto.
  - split.
    + intros [issues Hi]. split; [eexists; reflexivity|].
      apply Hin in Hi. destruct Hi as [[E _] | [[_ E] | [E _]]];
        try discriminate.
      intros [s [Hg Hb]].
      assert (z_string is_email [email]
                (get (JObject members) (js "email")) = inl s)
        by (apply ContactEndpoint.z_string_email; auto).
      congruence.
    + intros [_ Hn].
      destruct (z_string is_email [email]
                  (get (JObject members) (js "email"))) as [s|issues] eqn:E.
      * exfalso; apply Hn. apply ContactEndpoint.z_string_email in E.
        exists s; exact E.
      * exists issues. apply Hin. right; left; auto.
  - split.
    + intros [issues Hi]. split; [eexists; reflexivity|].
      apply Hin in Hi. destruct Hi as [[E _] | [[E _] | [_ E]]];
        try discriminate.
      intros [s [Hg Hb]].
      assert (z_string is_email [min 10; max 1000]
                (get (JObject members) (js "message")) = inl s)
        by (apply ContactEndpoint.z_string_length; auto).
      congruence.
    + intros [_ Hn].
      destruct (z_string is_email [min 10; max 1000]
                  (get (JObject members) (js "message"))) as [s|issues] eqn:E.
      * exfalso; apply Hn. apply ContactEndpoint.z_string_length in E.
        exists s; exact E.
      * exists issues. apply Hin. right; right; auto.
  - intros k issues Hi. apply Hin in Hi.
    destruct Hi as [[-> E] | [[-> E] | [-> E]]]; (split; [|auto]).
    + apply z_string_issues_length in E; [|lia].
      destruct E as [[-> _] | [[-> _] | [-> _]]]; discriminate.
    + apply z_string_issues_email in E.
      destruct E as [[-> _] | [-> _]]; discriminate.
    + apply z_string_issues_length in E; [|lia].
      destruct E as [[-> _] | [[-> _] | [-> _]]]; discriminate.
Qed.

(** X12: which issue a field gets: a field that is missing or not a
    string gets [invalid_type] alone; a [name] or [message] string gets
    [too_small] alone below its lower bound and [too_big] alone above its
    upper bound; an [email] string the pattern refuses gets
    [invalid_string]. *)
Theorem rejected_issues members fe fi issues :
  contactSchema_safeParse is_email (JObject members) = Failure fe fi ->
  (In (js "name", issues) fi ->
   (issues = [invalid_type] /\
    forall s, lookup (js "name") members <> Some (JString s)) \/
   (issues = [too_small] /\
    exists s, lookup (js "name") members = Some (JString s) /\ str_length s < 2) \/
   (issues = [too_big] /\
    exists s, lookup (js "name") members = Some (JString s) /\ 50 < str_length s)) /\
  (In (js "email", issues) fi ->
   (issues = [invalid_type] /\
    forall s, lookup (js "email") members <> Some (JString s)) \/
   (issues = [invalid_string] /\
    exists s, lookup (js "email") members = Some (JString s) /\
              is_email s = false)) /\
  (In (js "message", issues) fi ->
   (issues = [invalid_type] /\
    forall s, lookup (js "message") members <> Some (JString s)) \/
   (issues = [too_small] /\
    exists s, lookup (js "message") members = Some (JString s) /\
              str_length s < 10) \/
   (issues = [too_big] /\
    exists s, lookup (js "message") members = Some (JString s) /\
              1000 < str_length s)).
Proof.
  intros H.
  destruct (safeParse_Failure_object members fe fi H) as [_ [Hfi _]].
  rewrite Hfi. split; [|split]; intros Hi; apply field_errors_In in Hi.
  - destruct Hi as [[_ E] | [[E _] | [E _]]]; try discriminate.
    apply z_string_issues_length in E; [exact E | lia].
  - destruct Hi as [[E _] | [[_ E] | [E _]]]; try discriminate.
    apply z_string_issues_email in E; exact E.
  - destruct Hi as [[E _] | [[E _] | [_ E]]]; try discriminate.
    apply z_string_issues_length in E; [exact E | lia].
Qed.

Lemma occurrences_app c (a b : js_string) :
  occurrences c (a ++ b) = (occurrences c a + occurrences c b)%nat.
Proof. unfold occurrences; apply count_occ_app. Qed.

Lemma occurrences_strip c (s : js_string) :
  (c = 60 \/ c = 62)%N -> occurrences c (strip_angle_brackets s) = 0%nat.
Proof.
  intros Hc. unfold occurrences. apply count_occ_not_In.
  unfold strip_angle_brackets. rewrite filter_In. intros [_ H].
  destruct Hc as [-> | ->]; discriminate.
Qed.

Lemma occurrences_br c (s : js_string) :
  (c = 60 \/ c = 62)%N ->
  occurrences c (newlines_to_br s)
  = (occurrences c s + occurrences 10%N s)%nat.
Proof.
  intros Hc. unfold newlines_to_br.
  induction s as [|x s IH]; [reflexivity|].
  change (flat_map (fun c0 => if N.eqb c0 10 then js "<br>" else [c0]) (x :: s))
    with ((if N.eqb x 10 then js "<br>" else [x])
          ++ flat_map (fun c0 => if N.eqb c0 10 then js "<br>" else [c0]) s).
  rewrite occurrences_app, IH.
  change (x :: s) with ([x] ++ s). rewrite !(occurrences_app _ [x] s).
  destruct (N.eqb_spec x 10) as [->|Hx].
  - destruct Hc as [-> | ->]; simpl; lia.
  - assert (occurrences 10%N [x] = 0%nat) as ->.
    { unfold occurrences; simpl. destruct (N.eq_dec x 10); [contradiction|reflexivity]. }
    lia.
Qed.

(** X13: no markup from the name or the message: in the mail of an
    accepted submission, [<] (and likewise [>]) occurs in the subject not
    at all, in the text only as often as in the sanitised address, and in
    the html 16 times for the template, once per line break of the
    message, and as often as in the sanitised address, which is the one
    value put in without stripping. *)
Theorem mail_markup body data c :
  contactSchema_safeParse is_email body = Success data ->
  (c = 60 \/ c = 62)%N ->
  let mail := contact_email trim toLowerCase data in
  (forall out,
     POST is_email trim toLowerCase toISOString_now resend_emails_send
       {| request_json := Ok body |} out
     = (Ok ok_response,
        out ++ console_for trim toLowerCase toISOString_now data
                 (resend_emails_send mail))) /\
  occurrences c (subject mail) = 0%nat /\
  occurrences c (text mail)
  = occurrences c (sanitizedEmail trim toLowerCase data) /\
  occurrences c (html mail)
  = (16 + occurrences 10%N (sanitizedMessage trim data)
     + occurrences c (sanitizedEmail trim toLowerCase data))%nat.
Proof.
  intros H Hc mail.
  split; [intros out; apply POST_accepted; exact H|].
  unfold mail, contact_email; cbn [subject text html].
  rewrite !occurrences_app, occurrences_br by exact Hc.
  unfold sanitizedName, sanitizedMessage.
  rewrite !occurrences_strip by exact Hc.
  generalize (occurrences 10%N (strip_angle_brackets (trim (message data)))).
  intros m.
  destruct Hc as [-> | ->];
    generalize (occurrences 60%N (sanitizedEmail trim toLowerCase data)),
               (occurrences 62%N (sanitizedEmail trim toLowerCase data));
    intros e60 e62;
    repeat match goal with
           | |- context [occurrences ?c ?s] =>
               let v := eval vm_compute in (occurrences c s) in
               change (occurrences c s) with v
           end;
    repeat split; lia.
Qed.

(** X15: the console does not get the message: two accepted submissions
    with the same name and address, for which sending does the same,
    leave the same console lines, whatever their messages. *)
Theorem console_hides_message body1 body2 data1 data2 out :
  contactSchema_safeParse is_email body1 = Success data1 ->
  contactSchema_safeParse is_email body2 = Success data2 ->
  name data1 = name data2 ->
  email_address data1 = email_address data2 ->
  resend_emails_send (contact_email trim toLowerCase data1)
  = resend_emails_send (contact_email trim toLowerCase data2) ->
  snd (POST is_email trim toLowerCase toISOString_now resend_emails_send
         {| request_json := Ok body1 |} out)
  = snd (POST is_email trim toLowerCase toISOString_now resend_emails_send
           {| request_json := Ok body2 |} out).
Proof.
  intros H1 H2 Hn He Hs.
  rewrite (POST_accepted body1 data1 out H1), (POST_accepted body2 data2 out H2).
  simpl. rewrite Hs. unfold console_for, sanitizedName, sanitizedEmail.
  rewrite Hn, He. reflexivity.
Qed.

(** X16: the earlier version of the route, which sends no mail, answers
    every request as the current one does, whatever the mail service and
    the consoles. *)
Theorem versions_answer_alike request out out' :
  fst (POST is_email trim toLowerCase toISOString_now resend_emails_send
         request out)
  = fst (ContactLogOnly.POST is_email trim toLowerCase toISOString_now
           request out').
Proof.
  destruct request as [[body|e]]; [|reflexivity].
  destruct (contactSchema_safeParse is_email body) as [data|fe fi] eqn:E.
  - rewrite (POST_accepted body data out E).
    unfold ContactLogOnly.POST, try_catch, bindM, lift, ret, print; simpl.
    rewrite E; reflexivity.
  - rewrite (POST_rejected body fe fi out E).
    unfold ContactLogOnly.POST, try_catch, bindM, lift, ret; simpl.
    rewrite E; reflexivity.
Qed.

(** X14: the bounds after sanitising: the schema measures the raw
    strings, and trimming and stripping only remove code units; so the
    name in the mail has at most 50 code units and the message at most
    1000, but the lower bounds are lost: an accepted name made of white
    space is sent as the empty name, and so for the message. *)
Theorem sanitised_bounds body data :
  contactSchema_safeParse is_email body = Success data ->
  str_length (sanitizedName JSString.trim data) <= 50 /\
  str_length (sanitizedMessage JSString.trim data) <= 1000 /\
  (forallb JSString.is_whitespace (name data) = true ->
   subject (contact_email JSString.trim toLowerCase data)
   = js "Portfolio Contact from ") /\
  (forallb JSString.is_whitespace (message data) = true ->
   sanitizedMessage JSString.trim data = []).
Proof.
  clear trim toISOString_now resend_emails_send.
  intros H. destruct (safeParse_Success_inv body data H)
    as [_ [Hn [_ [_ [_ Hm]]]]].
  unfold sanitizedName, sanitizedMessage, str_length.
  unfold str_length in Hn, Hm.
  pose proof (strip_length (JSString.trim (name data))).
  pose proof (trim_length (name data)).
  pose proof (strip_length (JSString.trim (message data))).
  pose proof (trim_length (message data)).
  split; [lia|]. split; [lia|]. split.
  - intros Hb. unfold contact_email, sanitizedName; cbn [subject].
    rewrite (trim_blank _ Hb). reflexivity.
  - intros Hb. rewrite (trim_blank _ Hb). reflexivity.
Qed.

End RouteFacts.

Lemma rejected_fields_witness :
  respond contains_at JSString.trim (fun s => s) [] send_fails
    {| request_json := Ok bad_body |}
  = Ok {| response_body :=
            {| success := false;
               response_message := js "Validation failed";
               errors := Some [(js "name", [too_small]);
                               (js "email", [invalid_type])] |};
          status := 400 |}.
Proof.
  exact (proj1 (rejected_fields contains_at JSString.trim (fun s => s) []
                  send_fails bad_body []
                  [(js "name", [too_small]); (js "email", [invalid_type])]
                  eq_refl)).
Defined.

Lemma rejected_issues_witness :
  ([too_small] = [invalid_type] /\
   forall s, lookup (js "name") [(js "name", JString (js "T"));
                                 (js "email", JNumber 7 0);
                                 (js "message",
                                  JString (js "Hello from the contact form."))]
             <> Some (JString s)) \/
  ([too_small] = [too_small] /\
   exists s, lookup (js "name") [(js "name", JString (js "T"));
                                 (js "email", JNumber 7 0);
                                 (js "message",
                                  JString (js "Hello from the contact form."))]
             = Some (JString s) /\ str_length s < 2) \/
  ([too_small] = [too_big] /\
   exists s, lookup (js "name") [(js "name", JString (js "T"));
                                 (js "email", JNumber 7 0);
                                 (js "message",
                                  JString (js "Hello from the contact form."))]
             = Some (JString s) /\ 50 < str_length s).
Proof.
  exact (proj1 (rejected_issues contains_at
                  [(js "name", JString (js "T"));
                   (js "email", JNumber 7 0);
                   (js "message", JString (js "Hello from the contact form."))]
                  [] [(js "name", [too_small]); (js "email", [invalid_type])]
                  [too_small] eq_refl)
           (or_introl eq_refl)).
Defined.

Lemma mail_markup_witness :
  occurrences 60%N
    (html (contact_email JSString.trim (fun s => s)
             {| name := js "Tim";
                email_address := js "tim@example.com";
                message := js "Hello from the contact form." |}))
  = 16%nat.
Proof.
  exact (proj2 (proj2 (proj2
    (mail_markup contains_at JSString.trim (fun s => s) [] send_fails
       sample_body
       {| name := js "Tim";
          email_address := js "tim@example.com";
          message := js "Hello from the contact form." |}
       60%N eq_refl (or_introl eq_refl))))).
Defined.

Lemma sanitised_bounds_witness :
  subject (contact_email JSString.trim (fun s => s)
             {| name := js "   ";
                email_address := js "tim@example.com";
                message := js "Hello from the contact form." |})
  = js "Portfolio Contact from ".
Proof.
  apply (proj1 (proj2 (proj2
    (sanitised_bounds contains_at (fun s => s) blank_body
       {| name := js "   ";
          email_address := js "tim@example.com";
          message := js "Hello from the contact form." |}
       eq_refl)))).
  reflexivity.
Defined.

Lemma console_hides_message_witness :
  snd (POST contains_at JSString.trim (fun s => s) [] send_fails
         {| request_json := Ok sample_body |} [])
  = snd (POST contains_at JSString.trim (fun s => s) [] send_fails
           {| request_json :=
                Ok (JObject [(js "name", JString (js "Tim"));
                             (js "email", JString (js "tim@example.com"));
                             (js "message", JString (js "Another message."))]) |}
           []).
Proof.
  exact (console_hides_message contains_at JSString.trim (fun s => s) []
           send_fails sample_body
           (JObject [(js "name", JString (js "Tim"));
                     (js "email", JString (js "tim@example.com"));
                     (js "message", JString (js "Another message."))])
           {| name := js "Tim";
              email_address := js "tim@example.com";
              message := js "Hello from the contact form." |}
           {| name := js "Tim";
              email_address := js "tim@example.com";
              message := js "Another message." |}
           [] eq_refl eq_refl eq_refl eq_refl eq_refl).
Defined.

End ContactRoute.

(** ** The form: what a submission leaves behind *)

Module ContactFormFacts.
Import Contact ContactForm JSFacts.

Section FormFacts.

Variable Number_toString : Z -> Z -> js_string.
Variable null_property_message : js_string.
Variable fetch : js_string -> RequestInit -> settled Response.

Lemma state_after_caught st error :
  state_after st
    ([setSubmitStatus loading; setErrorMessage []] ++ caught error)
  = {| submitStatus := failed;
       errorMessage := match error with
                       | ErrorObject m => m
                       | NotAnError => js "An unexpected error occurred"
                       end |}.
Proof. reflexivity. Qed.

(** [onSubmit] ends in the [catch] block or in success. *)
Lemma onSubmit_cases data :
  (exists error,
     onSubmit Number_toString null_property_message fetch data
     = [setSubmitStatus loading; setErrorMessage []] ++ caught error /\
     forall r, fetch (js "/api/contact") (the_request data) = Fulfilled r ->
               ok r = false) \/
  (onSubmit Number_toString null_property_message fetch data
   = [setSubmitStatus loading; setErrorMessage [];
      setSubmitStatus succeeded; reset;
      setTimeout_setSubmitStatus idle 5000] /\
   exists r, fetch (js "/api/contact") (the_request data) = Fulfilled r /\
             ok r = true).
Proof.
  unfold onSubmit. fold (the_request data).
  destruct (fetch (js "/api/contact") (the_request data)) as [r|e].
  - destruct (ok r) eqn:Hok; simpl.
    + right; split; [reflexivity | exists r; auto].
    + left. destruct (response_json r) as [errorData|e].
      * destruct (read_message null_property_message errorData) as [v|e].
        -- eexists; split; [reflexivity|].
           intros r' H; inversion H; subst; exact Hok.
        -- exists e; split; [reflexivity|].
           intros r' H; inversion H; subst; exact Hok.
      * exists e; split; [reflexivity|].
        intros r' H; inversion H; subst; exact Hok.
  - left; exists e; split; [reflexivity | intros r H; discriminate].
Qed.

(** X17: a submission always settles: whatever [fetch] does and whatever
    the state before, [onSubmit] first sets [loading] and clears the
    error, and ends with the status [succeeded] or [failed], never
    [loading]; it succeeds exactly when [fetch] gives a response that is
    ok, and only then resets the form and arms the timer that hides the
    banner, leaving no error message; the banner then shows a text that
    is not empty. *)
Theorem submission_settles data st :
  let effects := onSubmit Number_toString null_property_message fetch data in
  let final := state_after st effects in
  (exists rest,
     effects = setSubmitStatus loading :: setErrorMessage [] :: rest) /\
  (submitStatus final = succeeded \/ submitStatus final = failed) /\
  (submitStatus final = succeeded <->
   exists r, fetch (js "/api/contact") (the_request data) = Fulfilled r /\
             ok r = true) /\
  (submitStatus final = succeeded <->
   errorMessage final = [] /\ In reset effects /\
   In (setTimeout_setSubmitStatus idle 5000) effects) /\
  (submitStatus final = failed ->
   ~ In reset effects /\
   forall s ms, ~ In (setTimeout_setSubmitStatus s ms) effects) /\
  (exists shown, banner final = Some shown /\ shown <> []).
Proof.
  intros effects final; unfold final, effects.
  destruct (onSubmit_cases data) as [[error [E Hnok]] | [E [r [Hr Hok]]]];
    rewrite E.
  - rewrite state_after_caught. simpl submitStatus.
    split; [eexists; reflexivity|]. split; [auto|].
    split; [split; [discriminate
                   | intros [r [Hr Hok]]; rewrite (Hnok r Hr) in Hok;
                     discriminate]|].
    split; [split; [discriminate|]|].
    { intros [_ [H _]]. simpl in H.
      destruct H as [H|[H|[H|[H|[]]]]]; discriminate. }
    split.
    { intros _. split.
      - simpl. intros [H|[H|[H|[H|[]]]]]; discriminate.
      - intros s ms. simpl. intros [H|[H|[H|[H|[]]]]]; discriminate. }
    set (msg := match error with
                | ErrorObject m => m
                | NotAnError => js "An unexpected error occurred"
                end).
    unfold banner; cbn [submitStatus errorMessage].
    destruct (str_eqb msg []) eqn:Hs.
    + eexists; split; [reflexivity|].
      intros Habs; vm_compute in Habs; discriminate.
    + eexists; split; [reflexivity|].
      intros Hnil; rewrite Hnil in Hs; discriminate.
  - split; [eexists; reflexivity|]. simpl.
    split; [auto|]. split; [split; [intros _; exists r; auto | reflexivity]|].
    split; [split; [intros _; repeat split; auto 6 | reflexivity]|].
    split; [discriminate|].
    eexists; split; [reflexivity | intros Habs; vm_compute in Habs; discriminate].
Qed.

(** X18: the text of a failure: the form shows the message of the error
    that [fetch] or [response.json()] rejects with; for a response that
    is not ok and whose JSON is an object, its [message] when that is a
    non-empty string, and ["Failed to send message"] when the object has
    no [message]; for the JSON [null], the message of the [TypeError]. *)
Theorem failure_text data st :
  let final :=
    state_after st
      (onSubmit Number_toString null_property_message fetch data) in
  let answer := fetch (js "/api/contact") (the_request data) in
  (forall m, answer = Rejected (ErrorObject m) ->
     final = {| submitStatus := failed; errorMessage := m |}) /\
  (forall m, answer = Fulfilled {| ok := false;
                                   response_json := Rejected (ErrorObject m) |} ->
     final = {| submitStatus := failed; errorMessage := m |}) /\
  (forall members m,
     answer = Fulfilled {| ok := false;
                           response_json := Fulfilled (JObject members) |} ->
     lookup (js "message") members = Some (JString m) -> m <> [] ->
     final = {| submitStatus := failed; errorMessage := m |}) /\
  (forall members,
     answer = Fulfilled {| ok := false;
                           response_json := Fulfilled (JObject members) |} ->
     lookup (js "message") members = None ->
     final = {| submitStatus := failed;
                errorMessage := js "Failed to send message" |}) /\
  (answer = Fulfilled {| ok := false; response_json := Fulfilled JNull |} ->
   final = {| submitStatus := failed;
              errorMessage := null_property_message |}).
Proof.
  intros final answer; unfold final, answer, onSubmit.
  fold (the_request data).
  split; [|split; [|split; [|split]]].
  - intros m H; rewrite H; reflexivity.
  - intros m H; rewrite H; reflexivity.
  - intros members m H Hl Hm; rewrite H.
    cbn [ok response_json negb read_message]. rewrite Hl.
    cbn [truthy]. rewrite (str_eqb_neq _ _ Hm); reflexivity.
  - intros members H Hl; rewrite H.
    cbn [ok response_json negb read_message]. rewrite Hl; reflexivity.
  - intros H; rewrite H; reflexivity.
Qed.

End FormFacts.

Section FormAndRoute.

Variable Number_toString : Z -> Z -> js_string.
Variable null_property_message : js_string.
Variable issue_message : issue -> js_string.
Variable not_json_message : js_string.
Variable is_email : js_string -> bool.
Variable trim : js_string -> js_string.
Variable toLowerCase : js_string -> js_string.
Variable toISOString_now : js_string.
Variable resend_emails_send : Email -> result unit.

Lemma field_messages_length lo m_lo hi m_hi (value : js_string) :
  field_messages is_email [(min lo, m_lo); (max hi, m_hi)] value = [] <->
  lo <= str_length value <= hi.
Proof.
  clear. unfold field_messages; simpl.
  destruct (Z.ltb_spec (str_length value) lo);
    destruct (Z.gtb_spec (str_length value) hi); simpl;
    (split; [try discriminate; intros _; lia | intros; try lia; reflexivity]).
Qed.

Lemma field_messages_email msg (value : js_string) :
  field_messages is_email [(email, msg)] value = [] <->
  is_email value = true.
Proof.
  unfold field_messages; simpl. destruct (is_email value); simpl;
    split; try discriminate; reflexivity.
Qed.

Lemma client_errors_nil values :
  client_errors is_email values = [] <->
  2 <= str_length (name values) <= 50 /\
  is_email (email_address values) = true /\
  10 <= str_length (message values) <= 1000.
Proof.
  rewrite <- (field_messages_length 2 (js "Name must be at least 2 characters")
                50 (js "Name must be less than 50 characters")).
  rewrite <- (field_messages_email (js "Please enter a valid email address")).
  rewrite <- (field_messages_length 10
                (js "Message must be at least 10 characters") 1000
                (js "Message must be less than 1000 characters")).
  unfold client_errors.
  change (field_messages is_email name_checks (name values))
    with (field_messages is_email
            [(min 2, js "Name must be at least 2 characters");
             (max 50, js "Name must be less than 50 characters")]
            (name values)).
  change (field_messages is_email email_checks (email_address values))
    with (field_messages is_email
            [(email, js "Please enter a valid email address")]
            (email_address values)).
  change (field_messages is_email message_checks (message values))
    with (field_messages is_email
            [(min 10, js "Message must be at least 10 characters");
             (max 1000, js "Message must be less than 1000 characters")]
            (message values)).
  generalize (field_messages is_email
                [(min 2, js "Name must be at least 2 characters");
                 (max 50, js "Name must be less than 50 characters")]
                (name values)),
             (field_messages is_email
                [(email, js "Please enter a valid email address")]
                (email_address values)),
             (field_messages is_email
                [(min 10, js "Message must be at least 10 characters");
                 (max 1000, js "Message must be less than 1000 characters")]
                (message values)).
  intros [|a la] [|b lb] [|c lc]; cbn [filter snd];
    split; try discriminate; try (intros [? [? ?]]; discriminate); auto.
Qed.

Lemma schemas_agree values :
  client_errors is_email values = [] <->
  contactSchema_safeParse is_email (JSON_of values) = Success values.
Proof.
  clear - is_email. rewrite client_errors_nil. split.
  - intros [Hn [He Hm]].
    assert (Hwf : well_formed_submission is_email (JSON_of values)).
    { exists (name values), (email_address values), (message values).
      repeat split; try reflexivity; try assumption; lia. }
    destruct (proj2 (ContactEndpoint.safeParse_success is_email (fun s => s)
                       (fun s => s) [] (JSON_of values)) Hwf) as [data Hd].
    rewrite Hd. f_equal.
    destruct (ContactRoute.safeParse_Success_inv is_email _ data Hd)
      as [H1 [_ [H2 [_ [H3 _]]]]].
    destruct data as [n e m], values as [n' e' m']; simpl in *.
    inversion H1; inversion H2; inversion H3; reflexivity.
  - intros H.
    destruct (ContactRoute.safeParse_Success_inv is_email _ values H)
      as [_ [Hn [_ [He [_ Hm]]]]].
    auto.
Qed.

(** X19: the form and the route agree: the values of the form pass the
    client's schema exactly when the route's schema accepts the body the
    form sends for them, and then the route's data are those values. *)
Theorem form_and_route_agree values :
  client_errors is_email values = [] <->
  contactSchema_safeParse is_email (JSON_of values) = Success values.
Proof.
  clear - is_email. split; intros H; apply schemas_agree; exact H.
Qed.

(** X20: through the form, over a network that delivers, a submission
    cannot fail: for all values of the form, either the client's schema
    has errors and nothing is sent, or the route answers 200, whatever
    the mail service does, and the form ends in [succeeded] with no error
    message, reset. *)
Theorem form_submission_succeeds values st :
  match handleSubmit Number_toString null_property_message is_email
          (route_fetch issue_message not_json_message is_email trim
             toLowerCase toISOString_now resend_emails_send)
          values with
  | None => client_errors is_email values <> []
  | Some effects =>
      client_errors is_email values = [] /\
      state_after st effects
      = {| submitStatus := succeeded; errorMessage := [] |} /\
      In reset effects /\
      In (setTimeout_setSubmitStatus idle 5000) effects
  end.
Proof.
  unfold handleSubmit.
  destruct (client_errors is_email values) as [|x l] eqn:E; [|discriminate].
  split; [reflexivity|].
  apply schemas_agree in E.
  unfold onSubmit, route_fetch.
  change (str_eqb (js "/api/contact") (js "/api/contact")
          && str_eqb (js "POST") (js "POST")) with true.
  cbv iota. cbn [body].
  rewrite (ContactEndpoint.respond_success is_email trim toLowerCase
             toISOString_now resend_emails_send (JSON_of values) values E).
  cbn. split; [reflexivity|]. split; [auto 6 | auto 8].
Qed.

End FormAndRoute.

Lemma failure_text_witness :
  state_after {| submitStatus := idle; errorMessage := [] |}
    (onSubmit (fun _ _ => []) [] fetch_rate_limited sample_values)
  = {| submitStatus := failed; errorMessage := js "Too many requests" |}.
Proof.
  apply (proj1 (proj2 (proj2
    (failure_text (fun _ _ => []) [] fetch_rate_limited sample_values
       {| submitStatus := idle; errorMessage := [] |})))
    [(js "message", JString (js "Too many requests"))]
    (js "Too many requests") eq_refl eq_refl).
  discriminate.
Defined.

End ContactFormFacts.
